(** * Story-book generator: the story and scene-image service

    A shallow embedding of [storygenerator.py] (class [GeminiStoryGenerator])
    and the properties of its prompt assembly, validation, parsing and
    bounded retry loop.

    Python values are modelled as follows.
    - [str]: a list of Unicode code points ([N]); literals are written with
      [lit].
    - [dict]: an association list in insertion order, with Python's update
      rule (an existing key keeps its position, a new key goes last).
    - exceptions: a record of the exception's class name and its argument;
      only exceptions deriving from [Exception] are modelled.
    - the two remote collaborators (Gemini text generation, Monster API image
      generation): functions on an abstract world state, threaded through a
      small state-and-exception monad that also logs every outbound call. *)

From Stdlib Require Import List NArith ZArith Bool Arith Lia.
From Stdlib Require Import Strings.String Strings.Ascii.
From Stdlib Require QArith.QArith_base.
Import ListNotations.

Local Open Scope N_scope.
Local Open Scope list_scope.

(** ** Python strings *)

Module PyStr.

Definition char := N.
Definition str := list char.

(** A literal of the source, as code points. *)
Definition lit (s : string) : str :=
  map N_of_ascii (list_ascii_of_string s).

(** The line feed, ['\n']. *)
Definition LF : char := 10.
Definition NL : str := [LF].

(** [str.isspace] on one code point: the characters Python's [split()] and
    [strip()] treat as whitespace. *)
Definition isspace (c : char) : bool :=
  ((9 <=? c) && (c <=? 13)) || ((28 <=? c) && (c <=? 32))
  || (c =? 133) || (c =? 160) || (c =? 5760)
  || ((8192 <=? c) && (c <=? 8202))
  || (c =? 8232) || (c =? 8233) || (c =? 8239) || (c =? 8287)
  || (c =? 12288).

(** [s.startswith(p)] *)
Fixpoint startswith (p s : str) : bool :=
  match p, s with
  | [], _ => true
  | _ :: _, [] => false
  | a :: p', b :: s' => (a =? b) && startswith p' s'
  end.

(** [p in s] *)
Fixpoint contains (p s : str) : bool :=
  startswith p s ||
  match s with
  | [] => false
  | _ :: s' => contains p s'
  end.

(** [s.split()]: maximal runs of non-whitespace characters; [word] is the
    run being read. *)
Fixpoint split_from (word s : str) : list str :=
  match s with
  | [] => match word with [] => [] | _ => [word] end
  | c :: s' =>
      if isspace c
      then match word with
           | [] => split_from [] s'
           | _ => word :: split_from [] s'
           end
      else split_from (word ++ [c]) s'
  end.

Definition str_split (s : str) : list str := split_from [] s.

(** [s.split(sep)] for a one-character separator: empty pieces are kept and
    the result always has at least one element. *)
Fixpoint split_on (sep : char) (s : str) : list str :=
  match s with
  | [] => [[]]
  | c :: s' =>
      if c =? sep then [] :: split_on sep s'
      else match split_on sep s' with
           | w :: ws => (c :: w) :: ws
           | [] => [[c]]
           end
  end.

(** [s.lstrip()], [s.rstrip()], [s.strip()] *)
Fixpoint lstrip (s : str) : str :=
  match s with
  | [] => []
  | c :: s' => if isspace c then lstrip s' else s
  end.

Definition rstrip (s : str) : str := rev (lstrip (rev s)).

Definition strip (s : str) : str := rstrip (lstrip s).

(** [sep.join(xs)] *)
Fixpoint join (sep : str) (xs : list str) : str :=
  match xs with
  | [] => []
  | [x] => x
  | x :: xs' => x ++ sep ++ join sep xs'
  end.

(** [s.replace(old, new)] for a non-empty [old]: every occurrence found
    scanning left to right, without overlap, is replaced.  [skip] counts the
    characters of a matched occurrence still to be passed over. *)
Fixpoint replace_from (old new : str) (skip : nat) (s : str) : str :=
  match s with
  | [] => []
  | c :: s' =>
      match skip with
      | S k => replace_from old new k s'
      | O =>
          if startswith old s
          then new ++ replace_from old new (pred (List.length old)) s'
          else c :: replace_from old new 0 s'
      end
  end.

(** With an empty [old], Python puts [new] before every character and at
    the end. *)
Definition replace (old new s : str) : str :=
  match old with
  | [] => new ++ flat_map (fun c => c :: new) s
  | _ :: _ => replace_from old new 0 s
  end.

(** Truth value of a string: non-empty. *)
Definition truthy (s : str) : bool :=
  match s with [] => false | _ :: _ => true end.

Definition str_eqb (a b : str) : bool :=
  if list_eq_dec N.eq_dec a b then true else false.

End PyStr.

Export PyStr.

(** ** Dictionaries, exceptions and results *)

Definition dict (V : Type) : Type := list (str * V).

(** [d.get(k)]; [d[k]] raises [KeyError] where this is [None]. *)
Fixpoint dict_get {V : Type} (k : str) (d : dict V) : option V :=
  match d with
  | [] => None
  | (k', v) :: d' => if str_eqb k k' then Some v else dict_get k d'
  end.

(** [d[k] = v] *)
Fixpoint dict_set {V : Type} (k : str) (v : V) (d : dict V) : dict V :=
  match d with
  | [] => [(k, v)]
  | (k', v') :: d' =>
      if str_eqb k k' then (k', v) :: d' else (k', v') :: dict_set k v d'
  end.

Definition keys {V : Type} (d : dict V) : list str := map fst d.

(** A raised exception: its class and its argument. *)
Record exn : Type := mk_exn { exn_class : string; exn_arg : str }.

Definition KeyError (k : str) : exn := mk_exn "KeyError" k.
Definition IndexError : exn := mk_exn "IndexError" (lit "list index out of range").
Definition Exception (msg : str) : exn := mk_exn "Exception" msg.

Inductive result (A : Type) : Type :=
| Return (a : A)
| Raise (e : exn).

Arguments Return {A} a.
Arguments Raise {A} e.

(** A Python float that the service only passes on. *)
Definition float : Type := QArith_base.Q.

(** ** The remote collaborators *)

(** The [input_data] dictionary handed to the Monster API client. *)
Record input_data : Type := mk_input_data {
  prompt : str;
  negprompt : str;
  samples : Z;
  steps : Z;
  aspect_ratio : str;
  guidance_scale : float;
  seed : Z
}.

(** [model.generate_content(prompt, temperature=...)] followed by [.text],
    and [monster_client.generate(model, input_data)]: each answers from the
    current state of the outside world and moves it on. *)
Class Providers : Type := {
  World : Type;
  generate_content : World -> str -> float -> result str * World;
  monster_generate :
    World -> str -> input_data -> result (dict (list str)) * World
}.

(** An outbound call, as logged. *)
Inductive call : Type :=
| TextCall (prompt : str) (temperature : float)
| ImageCall (model : str) (input : input_data).

(** The instance state set by [__init__]. *)
Record GeminiStoryGenerator : Type := mk_generator {
  monster_model : str;
  temperature : float
}.

Definition __init__ (temperature : float) : GeminiStoryGenerator :=
  mk_generator (lit "txt2img") temperature.

(** The value returned by [generate_story]. *)
Record Story : Type := mk_story {
  title : str;
  scenes : dict str;
  full_text : str
}.

(** The locals of the scene scan in [generate_story]. *)
Record scan_state : Type := mk_scan {
  scan_scenes : dict str;
  current_scene : option str;
  current_text : list str
}.

Section Service.

Context {P : Providers}.

(** The state a computation runs in: the world and the log of calls. *)
Record State : Type := mk_state {
  world : World;
  calls : list call
}.

Definition M (A : Type) : Type := State -> result A * State.

Definition ret {A : Type} (a : A) : M A := fun st => (Return a, st).

Definition raise {A : Type} (e : exn) : M A := fun st => (Raise e, st).

Definition bind {A B : Type} (c : M A) (k : A -> M B) : M B :=
  fun st =>
    match c st with
    | (Return a, st') => k a st'
    | (Raise e, st') => (Raise e, st')
    end.

Definition of_result {A : Type} (r : result A) : M A := fun st => (r, st).

Notation "x <- c ;; k" := (bind c (fun x => k))
  (at level 61, c at next level, right associativity).

(** *** [_create_story_prompt] *)

Definition _create_story_prompt (moral_value : str) (character_names : list str)
  : str :=
  lit "You are a children's story writer. Create a short story for children aged 0-5 years that teaches the moral value of "
  ++ moral_value ++ lit "." ++ NL
  ++ NL
  ++ lit "Requirements:" ++ NL
  ++ NL
  ++ lit "- Story should be 150-200 words" ++ NL
  ++ lit "- Use simple, clear language suitable for young children" ++ NL
  ++ lit "- Include character names: " ++ join (lit ", ") character_names ++ NL
  ++ lit "- Create 2-3 scenes that can be clearly visualized" ++ NL
  ++ lit "- Include some dialogue but keep it simple" ++ NL
  ++ lit "- Add repetitive elements that young children enjoy" ++ NL
  ++ lit "- End with a clear but gentle moral lesson" ++ NL
  ++ lit "- Avoid any scary or negative elements" ++ NL
  ++ lit "- Use descriptive language that can guide illustration" ++ NL
  ++ NL
  ++ lit "Format the story as follows:" ++ NL
  ++ lit "Title: [Story Title]" ++ NL
  ++ NL
  ++ lit "[Story text with clear paragraph breaks between scenes]" ++ NL
  ++ NL
  ++ lit "Each scene should be marked with [Scene X] at the start.".

(** *** [_generate_text] *)

Definition _generate_text (self : GeminiStoryGenerator) (prompt : str) : M str :=
  fun st =>
    let (response, w) := generate_content (world st) prompt (temperature self) in
    (response, mk_state w (calls st ++ [TextCall prompt (temperature self)])).

(** *** [_validate_content] *)

Definition _validate_content (story : str) : bool :=
  if (500 <? List.length (str_split story))%nat then false
  else if negb (contains (lit "[Scene") story) then false
  else true.

(** *** The parser inside [generate_story] *)

(** [lines[0].replace('Title:', '').strip()] *)
Definition parse_title (lines : list str) : str :=
  strip (replace (lit "Title:") [] (hd [] lines)).

(** Truth value of [current_scene]: neither [None] nor empty. *)
Definition scene_open (current_scene : option str) : bool :=
  match current_scene with
  | Some s => truthy s
  | None => false
  end.

(** [scenes[current_scene] = '\n'.join(current_text).strip()], done when
    [current_scene] is true. *)
Definition flush (st : scan_state) : dict str :=
  match current_scene st with
  | Some s =>
      if truthy s
      then dict_set s (strip (join NL (current_text st))) (scan_scenes st)
      else scan_scenes st
  | None => scan_scenes st
  end.

(** One iteration of [for line in lines[1:]]. *)
Definition scan_line (st : scan_state) (line : str) : scan_state :=
  if startswith (lit "[Scene") (strip line)
  then mk_scan (flush st) (Some (strip line)) []
  else if truthy (strip line) && scene_open (current_scene st)
       then mk_scan (scan_scenes st) (current_scene st)
                    (current_text st ++ [line])
       else st.

Definition scan_start : scan_state := mk_scan [] None [].

Definition scan (lines : list str) : scan_state :=
  fold_left scan_line lines scan_start.

(** The flush after the loop: [if current_scene and current_text]. *)
Definition scan_finish (st : scan_state) : dict str :=
  if scene_open (current_scene st)
     && match current_text st with [] => false | _ :: _ => true end
  then flush st
  else scan_scenes st.

Definition parse_scenes (lines : list str) : dict str :=
  scan_finish (scan (tl lines)).

(** The body of [if self._validate_content(story):]. *)
Definition parse_story (story : str) : Story :=
  let lines := split_on LF story in
  mk_story (parse_title lines) (parse_scenes lines) story.

(** *** [generate_story] *)

(** The [try] block of one iteration: [Some] is the [return], [None] is
    falling out of the [if]. *)
Definition attempt (self : GeminiStoryGenerator)
    (moral_value : str) (character_names : list str) : M (option Story) :=
  let prompt := _create_story_prompt moral_value character_names in
  story <- _generate_text self prompt ;;
  if _validate_content story then ret (Some (parse_story story))
  else ret None.

(** [for attempt in range(max_attempts)] with [remaining] iterations to
    go, then the [raise] after the loop. *)
Fixpoint generate_story_loop (self : GeminiStoryGenerator)
    (moral_value : str) (character_names : list str) (remaining : nat)
  : M Story :=
  match remaining with
  | O => raise (Exception (lit "Failed to generate a valid story"))
  | S k => fun st =>
      match attempt self moral_value character_names st with
      | (Return (Some story), st') => (Return story, st')
      | (Return None, st') =>
          generate_story_loop self moral_value character_names k st'
      | (Raise _, st') =>
          generate_story_loop self moral_value character_names k st'
      end
  end.

Definition generate_story (self : GeminiStoryGenerator)
    (moral_value : str) (character_names : list str) (max_attempts : Z)
  : M Story :=
  generate_story_loop self moral_value character_names (Z.to_nat max_attempts).

(** The default of [max_attempts]. *)
Definition default_max_attempts : Z := 3.

(** *** [generate_scene_image] *)

(** [for character_name in characters_involved: full_prompt += ...] *)
Fixpoint add_characters (character_descriptions : dict str)
    (characters_involved : list str) (full_prompt : str) : result str :=
  match characters_involved with
  | [] => Return full_prompt
  | character_name :: rest =>
      match dict_get character_name character_descriptions with
      | None => Raise (KeyError character_name)
      | Some description =>
          add_characters character_descriptions rest
            (full_prompt ++ character_name ++ lit ": " ++ description ++ NL)
      end
  end.

Definition full_prompt (scene_description : str)
    (character_descriptions : dict str) (characters_involved : list str)
  : result str :=
  match add_characters character_descriptions characters_involved [] with
  | Return p => Return (p ++ lit "Scene: " ++ scene_description ++ lit ".")
  | Raise e => Raise e
  end.

Definition make_input_data (full_prompt : str) : input_data :=
  mk_input_data full_prompt
    (lit "deformed, bad anatomy, disfigured, poorly drawn face")
    1 50 (lit "square") (QArith_base.Qmake 15 2) 2414.

Definition monster_client_generate (model : str) (input : input_data)
  : M (dict (list str)) :=
  fun st =>
    let (r, w) := monster_generate (world st) model input in
    (r, mk_state w (calls st ++ [ImageCall model input])).

(** [result['output'][0]] *)
Definition first_output (r : dict (list str)) : result str :=
  match dict_get (lit "output") r with
  | None => Raise (KeyError (lit "output"))
  | Some [] => Raise IndexError
  | Some (url :: _) => Return url
  end.

Definition generate_scene_image (self : GeminiStoryGenerator)
    (scene_description : str) (character_descriptions : dict str)
    (characters_involved : list str) (output_dir : str) (scene_name : str)
  : M str :=
  p <- of_result (full_prompt scene_description character_descriptions
                    characters_involved) ;;
  r <- monster_client_generate (monster_model self) (make_input_data p) ;;
  of_result (first_output r).

End Service.

(** ** Notions used to state the properties *)

(** [pat] occurs in [s]. *)
Definition Substring (pat s : str) : Prop :=
  exists pre suf, s = pre ++ pat ++ suf.

(** The words of a text are its maximal runs of non-whitespace characters;
    [word_starts] counts the places where one begins, [after_space] telling
    whether the previous character (or the start of the text) allows it. *)
Fixpoint word_starts (after_space : bool) (s : str) : nat :=
  match s with
  | [] => 0
  | c :: s' =>
      (if after_space && negb (isspace c) then 1 else 0)
      + word_starts (isspace c) s'
  end.

Definition word_count (s : str) : nat := word_starts true s.

(** A scene-marker line, a blank line. *)
Definition is_marker (line : str) : Prop :=
  startswith (lit "[Scene") (strip line) = true.

Definition is_blank (line : str) : Prop := strip line = [].

(** A marker line with the lines up to the next marker. *)
Definition block : Type := (str * list str)%type.

Definition block_lines (b : block) : list str := fst b :: snd b.

Definition block_ok (b : block) : Prop :=
  is_marker (fst b) /\ Forall (fun l => ~ is_marker l) (snd b).

(** The non-blank lines of a block's body. *)
Definition body_lines (b : block) : list str :=
  filter (fun l => truthy (strip l)) (snd b).

(** The entry a block stands for: trimmed marker line, trimmed joined
    body. *)
Definition record_block (d : dict str) (b : block) : dict str :=
  dict_set (strip (fst b)) (strip (join NL (body_lines b))) d.

(** The title as the specification words it: the first line without its
    ['Title:'] prefix, trimmed. *)
Definition removeprefix (p s : str) : str :=
  if startswith p s then skipn (List.length p) s else s.

Definition title_by_prefix (lines : list str) : str :=
  strip (removeprefix (lit "Title:") (hd [] lines)).

(** A text of [n + 1] words, the first being the scene marker. *)
Definition marked_words (n : nat) : str :=
  lit "[Scene" ++ List.concat (repeat (lit " a") n).

Section Runs.

Context {P : Providers}.

Variable self : GeminiStoryGenerator.
Variables (moral_value : str) (character_names : list str).

(** What the text collaborator answers in world [w] to this request. *)
Definition answer (w : World) : result str * World :=
  generate_content w (_create_story_prompt moral_value character_names)
    (temperature self).

(** The world after [n] requests. *)
Fixpoint world_after (n : nat) (w : World) : World :=
  match n with
  | O => w
  | S k => world_after k (snd (answer w))
  end.

(** The request made in world [w] gives no valid story: an exception, or a
    text that fails validation. *)
Definition rejected (w : World) : Prop :=
  match fst (answer w) with
  | Return story => _validate_content story = false
  | Raise _ => True
  end.

(** The log entry of one attempt. *)
Definition text_call : call :=
  TextCall (_create_story_prompt moral_value character_names)
    (temperature self).

End Runs.

(** Scripted collaborators: the text service plays back a list of answers,
    the image service always gives the same one. *)
Definition scripted (image : result (dict (list str))) : Providers := {|
  World := list (result str);
  generate_content := fun w _ _ =>
    match w with
    | [] => (Raise (mk_exn "RuntimeError" []), [])
    | r :: w' => (r, w')
    end;
  monster_generate := fun w _ _ => (image, w)
|}.

Definition no_image : result (dict (list str)) :=
  Return [(lit "output", [])].

Definition start {P : Providers} (w : World) : State := mk_state w [].

Definition sample_generator : GeminiStoryGenerator :=
  __init__ (QArith_base.Qmake 7 10).

(** Sample texts. *)
Definition two_scenes : str :=
  lit "Title: T" ++ NL ++ lit "[Scene 1]" ++ NL ++ lit "Hello" ++ NL
  ++ lit "world" ++ NL ++ lit "[Scene 2]" ++ NL ++ lit "Bye".

Definition trailing_marker : str :=
  lit "Title: T" ++ NL ++ lit "[Scene 1]".

Definition repeated_marker : str :=
  lit "Title: T" ++ NL ++ lit "[Scene 1]" ++ NL ++ lit "Hello" ++ NL
  ++ lit "[Scene 1]".

Definition trailing_second : str :=
  lit "Title: T" ++ NL ++ lit "[Scene 1]" ++ NL ++ lit "Hello" ++ NL
  ++ lit "[Scene 2]" ++ NL ++ lit "  ".

Definition title_twice : str :=
  lit "Title: A Title: B" ++ NL ++ lit "[Scene 1]" ++ NL ++ lit "Hi".

Definition no_marker : str := lit "Title: T" ++ NL ++ lit "Once upon a time".

(** Sample answers of the text collaborator: three rejected ones, and a
    valid one in second place. *)
Definition rejected_script : list (result str) :=
  [Return no_marker; Raise (mk_exn "ValueError" []);
   Return (marked_words 500)].

Definition second_valid_script : list (result str) :=
  [Return no_marker; Return two_scenes; Return trailing_second].

(** Sample image request. *)
Definition pets : dict str :=
  [(lit "A", lit "a dog"); (lit "B", lit "a cat")].

Definition one_image : result (dict (list str)) :=
  Return [(lit "output", [lit "https://img.example/1.png"])].

(** ** The HTTP handlers ([story_generator_app.py]) *)

Module App.

(** The request bodies. *)
Record StoryRequest : Type := mk_story_request {
  sr_moral_value : str;
  sr_character_names : list str
}.

Record ImageRequest : Type := mk_image_request {
  ir_scene_description : str;
  ir_characters_involved : list str;
  ir_character_descriptions : dict str;
  ir_scene_name : str
}.

(** The dictionary returned by the story handler: the story without its
    [full_text]. *)
Record StoryResponse : Type := mk_story_response {
  resp_title : str;
  resp_scenes : dict str
}.

(** What a handler does: return its payload, or raise [HTTPException]. *)
Inductive response (A : Type) : Type :=
| Respond (a : A)
| HTTPException (status_code : Z) (detail : str).

Arguments Respond {A} a.
Arguments HTTPException {A} status_code detail.

(** The module-level generator, built with [temperature=0.7]. *)
Definition story_generator : GeminiStoryGenerator :=
  __init__ (QArith_base.Qmake 7 10).

Section Handlers.

Context {P : Providers}.

(** Python's [repr] of a string; it depends on the interpreter's Unicode
    tables and is taken as given. *)
Variable repr : str -> str.

(** [str(e)]: the argument, which [KeyError] alone shows through [repr]. *)
Definition str_of_exn (e : exn) : str :=
  if String.eqb (exn_class e) "KeyError" then repr (exn_arg e)
  else exn_arg e.

(** [POST /generate-story] *)
Definition generate_story (request : StoryRequest)
  : State -> response StoryResponse * State :=
  fun st =>
    match generate_story story_generator (sr_moral_value request)
            (sr_character_names request) default_max_attempts st with
    | (Return story, st') =>
        (Respond (mk_story_response (title story) (scenes story)), st')
    | (Raise e, st') => (HTTPException 500 (str_of_exn e), st')
    end.

(** [POST /generate-image]; the payload is the value of ["image_path"]. *)
Definition generate_image (request : ImageRequest)
  : State -> response str * State :=
  fun st =>
    match generate_scene_image story_generator
            (ir_scene_description request)
            (ir_character_descriptions request)
            (ir_characters_involved request)
            (lit "generated_scene_images") (ir_scene_name request) st with
    | (Return image_path, st') => (Respond image_path, st')
    | (Raise e, st') => (HTTPException 500 (str_of_exn e), st')
    end.

(** [GET /]; the payload is the value of ["status"]. *)
Definition health_check : str := lit "API is running successfully!".

End Handlers.

End App.

(** Further samples. *)
Definition untitled : str :=
  lit "  The Kind Dog " ++ NL ++ lit "[Scene 1]" ++ NL ++ lit "Woof".

Definition with_preamble : list str :=
  [lit "Title: T"; lit "Once"; lit ""; lit "[Scene 1]"; lit "  ";
   lit "Hello"; lit "[Scene 1]"; lit "Again "; lit "[Scene 2]"; lit "Bye"].

Definition kind_request : App.StoryRequest :=
  App.mk_story_request (lit "kindness") [lit "Ann"; lit "Bo"].

Definition park_request (involved : list str) : App.ImageRequest :=
  App.mk_image_request (lit "park") involved pets (lit "scene_1").

Definition failing_image : result (dict (list str)) :=
  Raise (mk_exn "ConnectionError" (lit "timed out")).

Definition no_output_key : result (dict (list str)) :=
  Return [(lit "status", [lit "FAILED"])].

(** A stand-in for [repr] on strings that need no escaping. *)
Definition quoted (s : str) : str := lit "'" ++ s ++ lit "'".

(** * Properties *)

(** ** Strings *)

Lemma startswith_app (p s : str) : startswith p (p ++ s) = true.
Proof.
  induction p as [|a p IH]; simpl; [reflexivity|].
  now rewrite N.eqb_refl.
Qed.

Lemma startswith_true (p s : str) :
  startswith p s = true <-> exists suf, s = p ++ suf.
Proof.
  split.
  - revert s; induction p as [|a p IH]; intros s H.
    + now exists s.
    + destruct s as [|b s]; simpl in H; [discriminate|].
      apply andb_true_iff in H as [Hab Hps].
      apply N.eqb_eq in Hab; subst b.
      destruct (IH _ Hps) as [suf ->].
      now exists suf.
  - intros [suf ->]; apply startswith_app.
Qed.

Lemma contains_startswith (p s : str) :
  startswith p s = true -> contains p s = true.
Proof. destruct s; simpl; intros ->; reflexivity. Qed.

Lemma contains_true (p s : str) :
  contains p s = true <-> Substring p s.
Proof.
  split.
  - induction s as [|c s IH]; simpl; intros H.
    + rewrite orb_false_r in H.
      apply startswith_true in H as [suf Hs].
      now exists [], suf.
    + apply orb_true_iff in H as [H|H].
      * apply startswith_true in H as [suf Hs].
        now exists [], suf.
      * destruct (IH H) as (pre & suf & ->).
        now exists (c :: pre), suf.
  - intros (pre & suf & ->).
    induction pre as [|c pre IH].
    + change ([] ++ p ++ suf) with (p ++ suf).
      apply contains_startswith, startswith_app.
    + simpl; rewrite IH; apply orb_true_r.
Qed.

Lemma contains_false (p s : str) :
  contains p s = false <-> ~ Substring p s.
Proof.
  rewrite <- contains_true.
  destruct (contains p s); split; intros H; congruence.
Qed.

Lemma split_from_length (word s : str) :
  List.length (split_from word s)
  = ((if truthy word then 1 else 0) + word_starts (negb (truthy word)) s)%nat.
Proof.
  revert word; induction s as [|c s IH]; intros word; simpl.
  - destruct word; reflexivity.
  - destruct (isspace c) eqn:Hc.
    + rewrite andb_false_r; simpl.
      destruct word; simpl; rewrite IH; reflexivity.
    + rewrite IH, andb_true_r.
      destruct word; simpl; reflexivity.
Qed.

Lemma str_split_length (s : str) :
  List.length (str_split s) = word_count s.
Proof. unfold str_split; rewrite split_from_length; reflexivity. Qed.

Lemma truthy_nil (s : str) : truthy s = false <-> s = [].
Proof. destruct s; simpl; split; congruence. Qed.

Lemma str_eqb_eq (a b : str) : str_eqb a b = true <-> a = b.
Proof.
  unfold str_eqb; destruct (list_eq_dec N.eq_dec a b); split; congruence.
Qed.

Lemma str_eqb_refl (a : str) : str_eqb a a = true.
Proof. now apply str_eqb_eq. Qed.


Lemma split_on_nonempty (sep : char) (s : str) : split_on sep s <> [].
Proof.
  destruct s as [|c s]; simpl; [discriminate|].
  destruct (c =? sep); [discriminate|].
  destruct (split_on sep s); discriminate.
Qed.

Lemma split_on_line (sep : char) (line rest : str) :
  ~ In sep line ->
  split_on sep (line ++ sep :: rest) = line :: split_on sep rest.
Proof.
  induction line as [|c line IH]; simpl; intros H.
  - now rewrite N.eqb_refl.
  - destruct (N.eqb_spec c sep) as [->|_]; [tauto|].
    rewrite IH; tauto.
Qed.

Lemma split_on_last (sep : char) (line : str) :
  ~ In sep line -> split_on sep line = [line].
Proof.
  induction line as [|c line IH]; simpl; intros H; [reflexivity|].
  destruct (N.eqb_spec c sep) as [->|_]; [tauto|].
  rewrite IH; tauto.
Qed.

(** Splitting at line feeds undoes joining with line feeds. *)
Lemma split_on_join (lines : list str) :
  lines <> [] ->
  Forall (fun l => ~ In LF l) lines ->
  split_on LF (join NL lines) = lines.
Proof.
  intros Hne H; revert Hne.
  induction H as [|l ls Hl Hls IH]; intros Hne; [now destruct Hne|].
  destruct ls as [|l' ls].
  - now apply split_on_last.
  - change (join NL (l :: l' :: ls)) with (l ++ LF :: join NL (l' :: ls)).
    rewrite split_on_line by exact Hl.
    f_equal; apply IH; discriminate.
Qed.

(** ** Validation *)

Lemma validate_content_true (story : str) :
  _validate_content story = true
  <-> (word_count story <= 500)%nat /\ Substring (lit "[Scene") story.
Proof.
  unfold _validate_content.
  rewrite str_split_length, <- contains_true.
  destruct (Nat.ltb_spec 500 (word_count story));
    destruct (contains (lit "[Scene") story); simpl;
    split; intros; try discriminate; try tauto; try lia.
Qed.

(** C2. Validation passes exactly when the text has at most 500 words and
    contains the substring ['[Scene']: a text of exactly 500 words with the
    marker passes, a text of 501 words fails whatever it contains, and a
    text without the marker fails whatever its length. *)
Theorem validate_content_boundary (story : str) :
  (_validate_content story = true
   <-> (word_count story <= 500)%nat /\ Substring (lit "[Scene") story)
  /\ (word_count story = 500%nat -> Substring (lit "[Scene") story ->
      _validate_content story = true)
  /\ (word_count story = 501%nat -> _validate_content story = false)
  /\ (~ Substring (lit "[Scene") story -> _validate_content story = false).
Proof.
  pose proof (validate_content_true story) as Hiff.
  split; [exact Hiff|].
  split; [|split].
  - intros Hn Hs; apply Hiff; split; [lia | assumption].
  - intros Hn; destruct (_validate_content story) eqn:E; [|reflexivity].
    destruct Hiff as [Hiff _]; destruct (Hiff eq_refl); lia.
  - intros Hs; destruct (_validate_content story) eqn:E; [|reflexivity].
    destruct Hiff as [Hiff _]; destruct (Hiff eq_refl); contradiction.
Qed.

Lemma validate_content_boundary_witness :
  _validate_content (marked_words 499) = true
  /\ _validate_content (marked_words 500) = false
  /\ _validate_content no_marker = false.
Proof.
  split; [|split].
  - destruct (validate_content_boundary (marked_words 499)) as (_ & H & _).
    apply H.
    + vm_compute; reflexivity.
    + exists [], (List.concat (repeat (lit " a") 499)); reflexivity.
  - destruct (validate_content_boundary (marked_words 500)) as (_ & _ & H & _).
    apply H; vm_compute; reflexivity.
  - destruct (validate_content_boundary no_marker) as (_ & _ & _ & H).
    apply H, contains_false; vm_compute; reflexivity.
Defined.

(** ** The scene scan *)

Lemma marker_truthy (line : str) :
  is_marker line -> truthy (strip line) = true.
Proof.
  unfold is_marker; destruct (strip line); [discriminate | reflexivity].
Qed.

Lemma not_marker_false (line : str) :
  ~ is_marker line -> startswith (lit "[Scene") (strip line) = false.
Proof.
  unfold is_marker; destruct (startswith _ _); congruence.
Qed.

Lemma scan_line_marker (st : scan_state) (line : str) :
  is_marker line ->
  scan_line st line = mk_scan (flush st) (Some (strip line)) [].
Proof. unfold is_marker, scan_line; intros ->; reflexivity. Qed.

Lemma scan_line_blank (st : scan_state) (line : str) :
  is_blank line -> scan_line st line = st.
Proof. unfold is_blank, scan_line; intros ->; reflexivity. Qed.

Lemma scan_line_body (st : scan_state) (line : str) :
  ~ is_marker line ->
  scan_line st line =
    if truthy (strip line) && scene_open (current_scene st)
    then mk_scan (scan_scenes st) (current_scene st) (current_text st ++ [line])
    else st.
Proof.
  intros H; unfold scan_line; rewrite (not_marker_false _ H); reflexivity.
Qed.

Lemma scan_blanks (blanks : list str) (st : scan_state) :
  Forall is_blank blanks -> fold_left scan_line blanks st = st.
Proof.
  induction 1 as [|l ls Hl _ IH]; simpl; [reflexivity|].
  now rewrite scan_line_blank.
Qed.

(** Before the first marker nothing is recorded. *)
Lemma scan_closed (lines : list str) (st : scan_state) :
  Forall (fun l => ~ is_marker l) lines ->
  scene_open (current_scene st) = false ->
  fold_left scan_line lines st = st.
Proof.
  intros H Hc; induction H as [|l ls Hl _ IH]; simpl; [reflexivity|].
  rewrite scan_line_body, Hc, andb_false_r by assumption.
  exact IH.
Qed.

(** Inside a scene the non-blank lines are collected in order. *)
Lemma scan_body (lines : list str) (d : dict str) (key : str)
    (text : list str) :
  Forall (fun l => ~ is_marker l) lines ->
  truthy key = true ->
  fold_left scan_line lines (mk_scan d (Some key) text)
  = mk_scan d (Some key)
      (text ++ filter (fun l => truthy (strip l)) lines).
Proof.
  intros H Hk; revert text.
  induction H as [|l ls Hl _ IH]; intros text; simpl.
  - now rewrite app_nil_r.
  - rewrite scan_line_body by assumption; simpl.
    rewrite Hk, andb_true_r.
    destruct (truthy (strip l)).
    + rewrite IH, <- app_assoc; reflexivity.
    + apply IH.
Qed.

Lemma scan_block (b : block) (st : scan_state) :
  block_ok b ->
  fold_left scan_line (block_lines b) st
  = mk_scan (flush st) (Some (strip (fst b))) (body_lines b).
Proof.
  intros [Hm Hb]; unfold block_lines; simpl.
  rewrite scan_line_marker by assumption.
  now rewrite scan_body by (auto using marker_truthy).
Qed.

Lemma flush_block (d : dict str) (b : block) :
  block_ok b ->
  flush (mk_scan d (Some (strip (fst b))) (body_lines b)) = record_block d b.
Proof.
  intros [Hm _]; unfold flush; simpl.
  now rewrite (marker_truthy _ Hm).
Qed.

Lemma scan_blocks (bs : list block) (b : block) (st : scan_state) :
  Forall block_ok (bs ++ [b]) ->
  fold_left scan_line (flat_map block_lines (bs ++ [b])) st
  = mk_scan (fold_left record_block bs (flush st))
      (Some (strip (fst b))) (body_lines b).
Proof.
  revert st; induction bs as [|b0 bs IH]; intros st H;
    simpl in H; inversion H as [|? ? H0 Hrest]; subst;
    cbn [flat_map app].
  - rewrite app_nil_r.
    now apply scan_block.
  - rewrite fold_left_app, scan_block, IH by assumption.
    cbn [fold_left].
    now rewrite flush_block.
Qed.

(** The scenes of a text laid out as a title line, lines before the first
    marker, and blocks. *)
Lemma parse_scenes_blocks (first : str) (preamble : list str)
    (bs : list block) (b : block) :
  Forall (fun l => ~ is_marker l) preamble ->
  Forall block_ok (bs ++ [b]) ->
  parse_scenes (first :: preamble ++ flat_map block_lines (bs ++ [b]))
  = match body_lines b with
    | [] => fold_left record_block bs []
    | _ :: _ => fold_left record_block (bs ++ [b]) []
    end.
Proof.
  intros Hp Hb; unfold parse_scenes, scan; simpl tl.
  rewrite fold_left_app, (scan_closed preamble), scan_blocks
    by (assumption || reflexivity).
  assert (Hlast : block_ok b)
    by (apply Forall_app in Hb as [_ Hb]; now inversion Hb).
  unfold scan_finish; simpl.
  rewrite (marker_truthy _ (proj1 Hlast)); simpl.
  destruct (body_lines b) eqn:E; [reflexivity|].
  rewrite <- E, flush_block, fold_left_app by assumption.
  reflexivity.
Qed.

(** ** Dictionaries *)

Lemma dict_set_nonempty {V : Type} (k : str) (v : V) (d : dict V) :
  dict_set k v d <> [].
Proof.
  destruct d as [|[k' v'] d]; simpl; [discriminate|].
  destruct (str_eqb k k'); discriminate.
Qed.

Lemma dict_set_keys {V : Type} (k : str) (v : V) (d : dict V) (x : str) :
  In x (keys (dict_set k v d)) -> x = k \/ In x (keys d).
Proof.
  induction d as [|[k' v'] d IH]; simpl.
  - intros [H|[]]; auto.
  - destruct (str_eqb k k') eqn:E; simpl; intros [H|H]; auto.
    destruct (IH H); auto.
Qed.

Lemma dict_get_absent {V : Type} (k : str) (d : dict V) :
  ~ In k (keys d) -> dict_get k d = None.
Proof.
  induction d as [|[k' v'] d IH]; simpl; intros H; [reflexivity|].
  destruct (str_eqb k k') eqn:E.
  - apply str_eqb_eq in E; subst; tauto.
  - apply IH; tauto.
Qed.

(** ** Which keys the scan records *)

Lemma flush_keys (st : scan_state) (k : str) :
  In k (keys (flush st)) ->
  In k (keys (scan_scenes st)) \/ current_scene st = Some k.
Proof.
  unfold flush; destruct (current_scene st) as [s|]; [|auto].
  destruct (truthy s); [|auto].
  intros H; apply dict_set_keys in H as [->|H]; auto.
Qed.

Lemma scan_line_keys (st : scan_state) (line k : str) :
  In k (keys (scan_scenes (scan_line st line)))
  \/ current_scene (scan_line st line) = Some k ->
  (In k (keys (scan_scenes st)) \/ current_scene st = Some k)
  \/ (is_marker line /\ k = strip line).
Proof.
  destruct (startswith (lit "[Scene") (strip line)) eqn:E.
  - rewrite scan_line_marker by exact E; simpl.
    intros [H|H].
    + left; now apply flush_keys.
    + right; split; [exact E | congruence].
  - rewrite scan_line_body by (unfold is_marker; congruence).
    destruct (truthy (strip line) && scene_open (current_scene st)); auto.
Qed.

Lemma scan_keys (lines : list str) (st : scan_state) (k : str) :
  In k (keys (scan_scenes (fold_left scan_line lines st)))
  \/ current_scene (fold_left scan_line lines st) = Some k ->
  (In k (keys (scan_scenes st)) \/ current_scene st = Some k)
  \/ (exists l, In l lines /\ is_marker l /\ k = strip l).
Proof.
  revert st; induction lines as [|l ls IH]; intros st; simpl; [auto|].
  intros H; apply IH in H as [H|(l' & Hin & Hm & ->)].
  - apply scan_line_keys in H as [H|[Hm ->]]; [auto|].
    right; exists l; auto.
  - right; exists l'; auto.
Qed.

(** A marker line is on record, or pending, from the moment it is read. *)
Lemma dict_set_keeps {V : Type} (k : str) (v : V) (d : dict V) (x : str) :
  In x (keys d) -> In x (keys (dict_set k v d)).
Proof.
  induction d as [|[k' v'] d IH]; simpl; [contradiction|].
  destruct (str_eqb k k'); simpl; intros [H|H]; auto.
Qed.

Lemma dict_set_key {V : Type} (k : str) (v : V) (d : dict V) :
  In k (keys (dict_set k v d)).
Proof.
  induction d as [|[k' v'] d IH]; simpl; [auto|].
  destruct (str_eqb k k') eqn:E; simpl; [|auto].
  apply str_eqb_eq in E; auto.
Qed.

Lemma dict_get_present {V : Type} (k : str) (d : dict V) :
  In k (keys d) -> dict_get k d <> None.
Proof.
  induction d as [|[k' v'] d IH]; simpl; [contradiction|].
  destruct (str_eqb k k') eqn:E; [discriminate|].
  intros [H|H]; [|auto].
  subst k'; rewrite str_eqb_refl in E; discriminate.
Qed.

Lemma flush_remembers (st : scan_state) (k : str) :
  In k (keys (scan_scenes st))
  \/ (current_scene st = Some k /\ truthy k = true) ->
  In k (keys (flush st)).
Proof.
  unfold flush; intros [H|[Hc Ht]].
  - destruct (current_scene st) as [s|]; [|exact H].
    destruct (truthy s); [now apply dict_set_keeps | exact H].
  - rewrite Hc, Ht; apply dict_set_key.
Qed.

Lemma scan_line_remembers (st : scan_state) (line k : str) :
  In k (keys (scan_scenes st))
  \/ (current_scene st = Some k /\ truthy k = true) ->
  In k (keys (scan_scenes (scan_line st line)))
  \/ (current_scene (scan_line st line) = Some k /\ truthy k = true).
Proof.
  intros H.
  destruct (startswith (lit "[Scene") (strip line)) eqn:E.
  - rewrite scan_line_marker by exact E; simpl; left.
    now apply flush_remembers.
  - rewrite scan_line_body by (unfold is_marker; congruence).
    destruct (truthy (strip line) && scene_open (current_scene st)); auto.
Qed.

Lemma scan_remembers (lines : list str) (st : scan_state) (k : str) :
  In k (keys (scan_scenes st))
  \/ (current_scene st = Some k /\ truthy k = true) ->
  In k (keys (scan_scenes (fold_left scan_line lines st)))
  \/ (current_scene (fold_left scan_line lines st) = Some k
      /\ truthy k = true).
Proof.
  revert st; induction lines as [|l ls IH]; intros st H; simpl; [exact H|].
  now apply IH, scan_line_remembers.
Qed.

(** A trailing marker that repeats an earlier marker line finds its text
    among the keys. *)
Lemma repeated_marker_recorded (first : str) (pre : list str) (m : str)
    (blanks : list str) (l : str) :
  is_marker m -> Forall is_blank blanks ->
  In l pre -> is_marker l -> strip l = strip m ->
  dict_get (strip m) (parse_scenes (first :: pre ++ m :: blanks)) <> None.
Proof.
  intros Hm Hb Hin Hl Heq.
  apply in_split in Hin as (p1 & p2 & ->).
  unfold parse_scenes, scan; simpl tl.
  rewrite <- app_assoc, fold_left_app; cbn [app fold_left].
  rewrite fold_left_app; cbn [fold_left].
  rewrite scan_blanks, (scan_line_marker _ m) by assumption.
  unfold scan_finish; cbn [current_text]; rewrite andb_false_r.
  cbn [scan_scenes].
  apply dict_get_present, flush_remembers, scan_remembers.
  rewrite scan_line_marker by assumption; simpl; right.
  rewrite <- Heq; split; [reflexivity | now apply marker_truthy].
Qed.

(** ** When the scan records something *)

Lemma flush_keeps (st : scan_state) :
  scan_scenes st <> [] -> flush st <> [].
Proof.
  unfold flush; destruct (current_scene st) as [s|]; [|auto].
  destruct (truthy s); [|auto].
  intros _; apply dict_set_nonempty.
Qed.

Lemma flush_open (st : scan_state) :
  scene_open (current_scene st) = true -> flush st <> [].
Proof.
  unfold flush, scene_open; destruct (current_scene st) as [s|];
    [|discriminate].
  intros ->; apply dict_set_nonempty.
Qed.

Lemma scan_line_open (st : scan_state) (line : str) :
  scene_open (current_scene st) = true ->
  scene_open (current_scene (scan_line st line)) = true.
Proof.
  intros H.
  destruct (startswith (lit "[Scene") (strip line)) eqn:E.
  - rewrite scan_line_marker by exact E; simpl.
    now apply marker_truthy.
  - rewrite scan_line_body by (unfold is_marker; congruence).
    destruct (truthy (strip line) && scene_open (current_scene st)); auto.
Qed.

Lemma scan_open (lines : list str) (st : scan_state) :
  scene_open (current_scene st) = true ->
  scene_open (current_scene (fold_left scan_line lines st)) = true.
Proof.
  revert st; induction lines as [|l ls IH]; intros st H; simpl; [exact H|].
  now apply IH, scan_line_open.
Qed.

Lemma scan_line_pending (st : scan_state) (line : str) :
  scan_scenes st <> []
  \/ (scene_open (current_scene st) = true /\ current_text st <> []) ->
  scan_scenes (scan_line st line) <> []
  \/ (scene_open (current_scene (scan_line st line)) = true
      /\ current_text (scan_line st line) <> []).
Proof.
  intros H.
  destruct (startswith (lit "[Scene") (strip line)) eqn:E.
  - rewrite scan_line_marker by exact E; simpl; left.
    destruct H as [H|[H _]]; [now apply flush_keeps | now apply flush_open].
  - rewrite scan_line_body by (unfold is_marker; congruence).
    destruct (truthy (strip line) && scene_open (current_scene st)); [|exact H].
    simpl; destruct H as [H|[H _]]; [now left | right].
    split; [exact H|].
    intros Hnil; now apply app_eq_nil in Hnil as [_ Hnil].
Qed.

Lemma scan_pending (lines : list str) (st : scan_state) :
  scan_scenes st <> []
  \/ (scene_open (current_scene st) = true /\ current_text st <> []) ->
  scan_finish (fold_left scan_line lines st) <> [].
Proof.
  revert st; induction lines as [|l ls IH]; intros st H; simpl.
  - unfold scan_finish.
    destruct H as [H|[Ho Ht]].
    + destruct (_ && _); [now apply flush_keeps | exact H].
    + rewrite Ho; destruct (current_text st); [congruence|].
      now apply flush_open.
  - now apply IH, scan_line_pending.
Qed.

Lemma scan_line_nonblank (st : scan_state) (line : str) :
  scene_open (current_scene st) = true -> ~ is_blank line ->
  scan_scenes (scan_line st line) <> []
  \/ (scene_open (current_scene (scan_line st line)) = true
      /\ current_text (scan_line st line) <> []).
Proof.
  intros Ho Hb.
  destruct (startswith (lit "[Scene") (strip line)) eqn:E.
  - rewrite scan_line_marker by exact E; simpl; left.
    now apply flush_open.
  - rewrite scan_line_body by (unfold is_marker; congruence).
    rewrite Ho, andb_true_r.
    destruct (truthy (strip line)) eqn:Ht.
    + simpl; right; split; [exact Ho|].
      intros Hnil; now apply app_eq_nil in Hnil as [_ Hnil].
    + apply truthy_nil in Ht; contradiction.
Qed.

(** A marker line after the title line that is followed, at any distance,
    by a non-blank line, makes the result non-empty. *)
Lemma parse_scenes_nonempty (first : str) (before : list str) (m : str)
    (between : list str) (line : str) (after : list str) :
  is_marker m -> ~ is_blank line ->
  parse_scenes (first :: before ++ m :: between ++ line :: after) <> [].
Proof.
  intros Hm Hl; unfold parse_scenes, scan; simpl tl.
  rewrite fold_left_app; cbn [fold_left].
  rewrite fold_left_app; cbn [fold_left].
  apply scan_pending, scan_line_nonblank; [|exact Hl].
  apply scan_open.
  rewrite scan_line_marker by exact Hm; simpl.
  now apply marker_truthy.
Qed.

(** The converse: nothing is recorded unless a marker line is followed by a
    non-blank line. *)
Lemma flush_nonempty_inv (st : scan_state) :
  flush st <> [] ->
  scan_scenes st <> [] \/ scene_open (current_scene st) = true.
Proof.
  unfold flush, scene_open; destruct (current_scene st) as [s|]; [|auto].
  destruct (truthy s); auto.
Qed.

Lemma scan_snoc (lines : list str) (line : str) (st : scan_state) :
  fold_left scan_line (lines ++ [line]) st
  = scan_line (fold_left scan_line lines st) line.
Proof. now rewrite fold_left_app. Qed.

Lemma scan_history (lines : list str) :
  (scene_open (current_scene (scan lines)) = true ->
   exists before m after, lines = before ++ m :: after /\ is_marker m)
  /\ (scan_scenes (scan lines) <> [] \/ current_text (scan lines) <> [] ->
      exists before m between line after,
        lines = before ++ m :: between ++ line :: after
        /\ is_marker m /\ ~ is_blank line).
Proof.
  unfold scan; induction lines as [|l ls [IHo IHr]] using rev_ind.
  - simpl; split; [discriminate | intros [H|H]; congruence].
  - rewrite scan_snoc.
    destruct (startswith (lit "[Scene") (strip l)) eqn:E.
    + rewrite scan_line_marker by exact E; simpl; split.
      * intros _; exists ls, l, []; auto.
      * intros [H|H]; [|congruence].
        assert (Hl : ~ is_blank l).
        { unfold is_blank; intros Hb.
          apply marker_truthy in E; rewrite Hb in E; discriminate. }
        apply flush_nonempty_inv in H as [H|H].
        -- destruct IHr as (b & m & bt & x & a & -> & Hm & Hx); [auto|].
           exists b, m, bt, x, (a ++ [l]).
           now rewrite <- !app_assoc, <- !app_comm_cons, <- app_assoc.
        -- destruct (IHo H) as (b & m & a & -> & Hm).
           exists b, m, a, l, [].
           now rewrite <- app_assoc, <- app_comm_cons.
    + rewrite scan_line_body by (unfold is_marker; congruence).
      destruct (truthy (strip l)) eqn:Ht;
        destruct (scene_open (current_scene (fold_left scan_line ls scan_start)))
          eqn:Ho; simpl.
      * destruct (IHo eq_refl) as (b & m & a & -> & Hm); split.
        -- intros _; exists b, m, (a ++ [l]).
           now rewrite <- app_assoc, <- app_comm_cons.
        -- intros _; exists b, m, a, l, []; split; [|split; [exact Hm|]].
           ++ now rewrite <- app_assoc, <- app_comm_cons.
           ++ unfold is_blank; intros Hb; rewrite Hb in Ht; discriminate.
      * split; [congruence|].
        intros H; destruct (IHr H) as (b & m & bt & x & a & -> & Hm & Hx).
        exists b, m, bt, x, (a ++ [l]).
        now rewrite <- !app_assoc, <- !app_comm_cons, <- app_assoc.
      * split.
        -- intros _; destruct (IHo eq_refl) as (b & m & a & -> & Hm).
           exists b, m, (a ++ [l]).
           now rewrite <- app_assoc, <- app_comm_cons.
        -- intros H; destruct (IHr H) as (b & m & bt & x & a & -> & Hm & Hx).
           exists b, m, bt, x, (a ++ [l]).
           now rewrite <- !app_assoc, <- !app_comm_cons, <- app_assoc.
      * split; [congruence|].
        intros H; destruct (IHr H) as (b & m & bt & x & a & -> & Hm & Hx).
        exists b, m, bt, x, (a ++ [l]).
        now rewrite <- !app_assoc, <- !app_comm_cons, <- app_assoc.
Qed.

Lemma parse_scenes_nonempty_inv (lines : list str) :
  parse_scenes lines <> [] ->
  exists before m between line after,
    tl lines = before ++ m :: between ++ line :: after
    /\ is_marker m /\ ~ is_blank line.
Proof.
  unfold parse_scenes, scan_finish; intros H.
  apply (proj2 (scan_history (tl lines))).
  destruct (scene_open _ && _) eqn:E; [|now left].
  apply andb_true_iff in E as [_ Et].
  right; destruct (current_text _); [discriminate | discriminate].
Qed.

(** ** The parser *)

(** C3. The two-scene sample parses to the title ["T"] and the scenes
    ["[Scene 1]" -> "Hello\nworld"], ["[Scene 2]" -> "Bye"]; and in any text
    made of a title line, lines before the first marker, and marker lines
    each followed by its body (the last body holding a non-blank line),
    every marker line, trimmed, is mapped to its non-blank body lines joined
    by line feeds and trimmed, in the order of the text. *)
Theorem parse_story_scenes :
  parse_story two_scenes
  = mk_story (lit "T")
      [(lit "[Scene 1]", lit "Hello" ++ NL ++ lit "world");
       (lit "[Scene 2]", lit "Bye")]
      two_scenes
  /\ forall (story first : str) (preamble : list str)
            (bs : list block) (b : block),
       split_on LF story
       = first :: preamble ++ flat_map block_lines (bs ++ [b]) ->
       Forall (fun l => ~ is_marker l) preamble ->
       Forall block_ok (bs ++ [b]) ->
       body_lines b <> [] ->
       scenes (parse_story story) = fold_left record_block (bs ++ [b]) [].
Proof.
  split; [vm_compute; reflexivity|].
  intros story first preamble bs b Hlines Hp Hb Hbody.
  unfold parse_story; cbn [scenes].
  rewrite Hlines, parse_scenes_blocks by assumption.
  destruct (body_lines b); [congruence | reflexivity].
Qed.

Lemma parse_story_scenes_witness :
  scenes (parse_story two_scenes)
  = fold_left record_block
      [(lit "[Scene 1]", [lit "Hello"; lit "world"]);
       (lit "[Scene 2]", [lit "Bye"])] [].
Proof.
  apply (proj2 parse_story_scenes two_scenes (lit "Title: T") []
           [(lit "[Scene 1]", [lit "Hello"; lit "world"])]
           (lit "[Scene 2]", [lit "Bye"])).
  - vm_compute; reflexivity.
  - constructor.
  - repeat constructor; vm_compute; discriminate.
  - vm_compute; discriminate.
Defined.

(** C4 as stated fails: when the trailing marker repeats an earlier one, its
    text is a key of the result, recorded for the earlier scene. *)
Lemma trailing_marker_repeated :
  ~ (forall (story : str) (pre : list str) (m : str) (blanks : list str),
       split_on LF story = pre ++ m :: blanks ->
       is_marker m -> Forall is_blank blanks ->
       dict_get (strip m) (scenes (parse_story story)) = None).
Proof.
  intros H.
  specialize (H repeated_marker
                [lit "Title: T"; lit "[Scene 1]"; lit "Hello"]
                (lit "[Scene 1]") []).
  assert (E : dict_get (strip (lit "[Scene 1]"))
                (scenes (parse_story repeated_marker)) = Some (lit "Hello"))
    by (vm_compute; reflexivity).
  rewrite H in E; [discriminate | | | ].
  - vm_compute; reflexivity.
  - vm_compute; reflexivity.
  - constructor.
Qed.

(** C4, amended. When the text ends right after a marker line (only blank
    lines, if any, follow it) and no earlier marker line after the first
    line has the same trimmed text, the trimmed marker is not a key of the
    scenes. *)
Theorem trailing_marker_dropped (story : str) (pre : list str) (m : str)
    (blanks : list str) :
  split_on LF story = pre ++ m :: blanks ->
  is_marker m ->
  Forall is_blank blanks ->
  (forall l, In l (tl pre) -> is_marker l -> strip l <> strip m) ->
  dict_get (strip m) (scenes (parse_story story)) = None.
Proof.
  intros Hlines Hm Hb Hfresh.
  unfold parse_story; cbn [scenes].
  rewrite Hlines; unfold parse_scenes, scan.
  destruct pre as [|first pre]; simpl tl.
  - rewrite scan_blanks by assumption; reflexivity.
  - rewrite fold_left_app; cbn [fold_left].
    rewrite scan_blanks, scan_line_marker by assumption.
    unfold scan_finish; cbn [current_text]; rewrite andb_false_r.
    cbn [scan_scenes].
    apply dict_get_absent; intros Hin.
    apply flush_keys, scan_keys in Hin as [[[]|Hin]|(l & Hl & Hlm & Heq)].
    + discriminate.
    + now apply (Hfresh l Hl Hlm).
Qed.

Lemma trailing_marker_dropped_witness :
  dict_get (lit "[Scene 2]") (scenes (parse_story trailing_second)) = None.
Proof.
  apply (trailing_marker_dropped trailing_second
           [lit "Title: T"; lit "[Scene 1]"; lit "Hello"]
           (lit "[Scene 2]") [lit "  "]).
  - vm_compute; reflexivity.
  - vm_compute; reflexivity.
  - repeat constructor.
  - intros l [<-|[<-|[]]]; vm_compute; intros; discriminate.
Defined.

(** C6 as stated fails: a text that ends right after its only marker line
    passes validation and yields no scene. *)
Lemma validated_without_scenes :
  _validate_content trailing_marker = true
  /\ scenes (parse_story trailing_marker) = [].
Proof. split; vm_compute; reflexivity. Qed.

(** C6, amended. For a text that passes validation and has, after its first
    line, a marker line followed at some point by a non-blank line, the
    scenes are not empty. *)
Theorem validated_scenes_nonempty (story first : str) (before : list str)
    (m : str) (between : list str) (line : str) (after : list str) :
  _validate_content story = true ->
  split_on LF story = first :: before ++ m :: between ++ line :: after ->
  is_marker m ->
  ~ is_blank line ->
  scenes (parse_story story) <> [].
Proof.
  intros _ Hlines Hm Hl.
  unfold parse_story; cbn [scenes].
  rewrite Hlines.
  now apply parse_scenes_nonempty.
Qed.

Lemma validated_scenes_nonempty_witness :
  scenes (parse_story two_scenes) <> [].
Proof.
  apply (validated_scenes_nonempty two_scenes (lit "Title: T") []
           (lit "[Scene 1]") [] (lit "Hello")
           [lit "world"; lit "[Scene 2]"; lit "Bye"]).
  - vm_compute; reflexivity.
  - vm_compute; reflexivity.
  - vm_compute; reflexivity.
  - vm_compute; discriminate.
Defined.

(** ** The title *)

Lemma replace_from_skip (old new p rest : str) :
  replace_from old new (List.length p) (p ++ rest)
  = replace_from old new 0 rest.
Proof.
  induction p as [|c p IH]; simpl; [|exact IH].
  destruct rest; reflexivity.
Qed.

Lemma replace_from_absent (old new s : str) :
  old <> [] -> ~ Substring old s -> replace_from old new 0 s = s.
Proof.
  intros Hold; induction s as [|c s IH]; intros H; simpl; [reflexivity|].
  destruct (startswith old (c :: s)) eqn:E.
  - exfalso; apply H.
    apply startswith_true in E as [suf E].
    now exists [], suf.
  - f_equal; apply IH.
    intros (pre & suf & ->); apply H.
    now exists (c :: pre), suf.
Qed.

Lemma replace_prefix (old new rest : str) :
  old <> [] -> ~ Substring old rest ->
  replace old new (old ++ rest) = new ++ rest.
Proof.
  intros Hold H; destruct old as [|a old]; [congruence|].
  unfold replace; simpl.
  rewrite N.eqb_refl, startswith_app; simpl.
  now rewrite replace_from_skip, replace_from_absent.
Qed.

Lemma removeprefix_app (p rest : str) : removeprefix p (p ++ rest) = rest.
Proof.
  unfold removeprefix; rewrite startswith_app.
  induction p; simpl; auto.
Qed.

(** Where ['Title:'] occurs only as the prefix of the first line, the code
    and the specification's wording give the same title. *)
Lemma parse_title_prefix_only (rest : str) (more : list str) :
  ~ Substring (lit "Title:") rest ->
  parse_title ((lit "Title:" ++ rest) :: more) = strip rest
  /\ title_by_prefix ((lit "Title:" ++ rest) :: more) = strip rest.
Proof.
  intros H; unfold parse_title, title_by_prefix; cbn [hd]; split.
  - rewrite replace_prefix by (assumption || discriminate); reflexivity.
  - now rewrite removeprefix_app.
Qed.

(** C8. On the first line ["Title: A Title: B"] the code removes both
    occurrences of ['Title:'] and returns ["A  B"], where stripping the
    prefix alone gives ["A Title: B"]. *)
Theorem parse_title_removes_every_occurrence :
  title (parse_story title_twice) = lit "A  B"
  /\ title_by_prefix (split_on LF title_twice) = lit "A Title: B"
  /\ _validate_content title_twice = true.
Proof. repeat split; vm_compute; reflexivity. Qed.

(** ** The retry loop *)

Section Retry.

Context {P : Providers}.

Variable self : GeminiStoryGenerator.
Variables (moral_value : str) (character_names : list str).

Local Abbreviation loop :=
  (generate_story_loop self moral_value character_names).
Local Abbreviation after := (world_after self moral_value character_names).
Local Abbreviation one_call := (text_call self moral_value character_names).

(** A rejected attempt costs one call and leaves the loop to go on. *)
Lemma loop_rejected (k : nat) (st : State) :
  rejected self moral_value character_names (world st) ->
  loop (S k) st
  = loop k (mk_state (after 1%nat (world st)) (calls st ++ [one_call])).
Proof.
  unfold rejected, text_call; simpl.
  unfold attempt, bind, _generate_text, answer.
  destruct (generate_content _ _ _) as [[story|e] w]; simpl; [|reflexivity].
  intros ->; reflexivity.
Qed.

(** A validated attempt ends the loop with the parsed story. *)
Lemma loop_accepted (k : nat) (st : State) (story : str) :
  fst (answer self moral_value character_names (world st)) = Return story ->
  _validate_content story = true ->
  loop (S k) st
  = (Return (parse_story story),
     mk_state (after 1%nat (world st)) (calls st ++ [one_call])).
Proof.
  unfold text_call; simpl.
  unfold attempt, bind, _generate_text, answer.
  destruct (generate_content _ _ _) as [r w]; simpl.
  intros -> ->; reflexivity.
Qed.

Lemma loop_exhausted (n : nat) (st : State) :
  (forall i, (i < n)%nat ->
     rejected self moral_value character_names (after i (world st))) ->
  loop n st
  = (Raise (Exception (lit "Failed to generate a valid story")),
     mk_state (after n (world st)) (calls st ++ repeat one_call n)).
Proof.
  revert st; induction n as [|n IH]; intros st H.
  - simpl; rewrite app_nil_r; destruct st; reflexivity.
  - rewrite loop_rejected by (apply (H 0%nat); lia).
    rewrite IH; simpl.
    + now rewrite <- app_assoc.
    + intros i Hi; apply (H (S i)); lia.
Qed.

Lemma loop_first_valid (k n : nat) (st : State) (story : str) :
  (k < n)%nat ->
  (forall i, (i < k)%nat ->
     rejected self moral_value character_names (after i (world st))) ->
  fst (answer self moral_value character_names (after k (world st)))
  = Return story ->
  _validate_content story = true ->
  loop n st
  = (Return (parse_story story),
     mk_state (after (S k) (world st)) (calls st ++ repeat one_call (S k))).
Proof.
  revert n st; induction k as [|k IH]; intros n st Hk Hrej Hans Hval;
    (destruct n as [|n]; [exfalso; clear -Hk; lia|]).
  - now rewrite (loop_accepted n st story).
  - rewrite loop_rejected by (apply (Hrej 0%nat); lia).
    rewrite (IH n);
      [ simpl; now rewrite <- app_assoc
      | lia
      | intros i Hi; apply (Hrej (S i)); lia
      | exact Hans
      | exact Hval ].
Qed.

(** C1. When every attempt is rejected (the collaborator raises, or its
    text fails validation), [generate_story] with the default bound calls
    the collaborator exactly three times and then raises the exception
    ['Failed to generate a valid story']. *)
Theorem generate_story_exhausted (st : State) :
  (forall i, (i < 3)%nat ->
     rejected self moral_value character_names
       (world_after self moral_value character_names i (world st))) ->
  generate_story self moral_value character_names default_max_attempts st
  = (Raise (Exception (lit "Failed to generate a valid story")),
     mk_state (world_after self moral_value character_names 3 (world st))
       (calls st
        ++ [text_call self moral_value character_names;
            text_call self moral_value character_names;
            text_call self moral_value character_names])).
Proof.
  intros H; unfold generate_story.
  exact (loop_exhausted 3 st H).
Qed.

(** C5. When the first [k] attempts are rejected and attempt [k + 1],
    within the bound, gives a text that passes validation, [generate_story]
    returns that text parsed, having called the collaborator exactly
    [k + 1] times: no attempt follows the first valid one. *)
Theorem generate_story_first_valid (max_attempts : Z) (st : State)
    (k : nat) (story : str) :
  (k < Z.to_nat max_attempts)%nat ->
  (forall i, (i < k)%nat ->
     rejected self moral_value character_names
       (world_after self moral_value character_names i (world st))) ->
  fst (answer self moral_value character_names
         (world_after self moral_value character_names k (world st)))
  = Return story ->
  _validate_content story = true ->
  generate_story self moral_value character_names max_attempts st
  = (Return (parse_story story),
     mk_state (world_after self moral_value character_names (S k) (world st))
       (calls st
        ++ repeat (text_call self moral_value character_names) (S k))).
Proof.
  intros Hk Hrej Hans Hval; unfold generate_story.
  exact (loop_first_valid k _ st story Hk Hrej Hans Hval).
Qed.

End Retry.

Lemma generate_story_exhausted_witness :
  @generate_story (scripted no_image) sample_generator (lit "kindness")
    [lit "Ann"; lit "Bo"] default_max_attempts (@start (scripted no_image) rejected_script)
  = (Raise (Exception (lit "Failed to generate a valid story")),
     @mk_state (scripted no_image) []
       (repeat (text_call sample_generator (lit "kindness")
                  [lit "Ann"; lit "Bo"]) 3)).
Proof.
  apply (@generate_story_exhausted (scripted no_image) sample_generator
           (lit "kindness") [lit "Ann"; lit "Bo"] (@start (scripted no_image) rejected_script)).
  intros [|[|[|i]]] Hi; [vm_compute; reflexivity | exact I
                        | vm_compute; reflexivity | lia].
Defined.

Lemma generate_story_first_valid_witness :
  @generate_story (scripted no_image) sample_generator (lit "kindness")
    [lit "Ann"; lit "Bo"] 3 (@start (scripted no_image) second_valid_script)
  = (Return (parse_story two_scenes),
     @mk_state (scripted no_image) [Return trailing_second]
       (repeat (text_call sample_generator (lit "kindness")
                  [lit "Ann"; lit "Bo"]) 2)).
Proof.
  apply (@generate_story_first_valid (scripted no_image) sample_generator
           (lit "kindness") [lit "Ann"; lit "Bo"] 3
           (@start (scripted no_image) second_valid_script) 1 two_scenes).
  - vm_compute; lia.
  - intros [|i] Hi; [vm_compute; reflexivity | lia].
  - reflexivity.
  - vm_compute; reflexivity.
Defined.

(** ** The image prompt *)

Lemma add_characters_described (character_descriptions : dict str)
    (characters_involved : list str) (descriptions : list str)
    (full_prompt : str) :
  Forall2 (fun name d => dict_get name character_descriptions = Some d)
    characters_involved descriptions ->
  add_characters character_descriptions characters_involved full_prompt
  = Return (full_prompt
            ++ List.concat
                 (map (fun nd => fst nd ++ lit ": " ++ snd nd ++ NL)
                    (combine characters_involved descriptions))).
Proof.
  intros H; revert full_prompt.
  induction H as [|name d names ds Hd _ IH]; intros full_prompt; simpl.
  - now rewrite app_nil_r.
  - rewrite Hd, IH.
    now rewrite <- !app_assoc.
Qed.

Lemma add_characters_missing (character_descriptions : dict str)
    (characters_involved : list str) (full_prompt : str) :
  (exists name, In name characters_involved
                /\ dict_get name character_descriptions = None) ->
  exists before name after,
    characters_involved = before ++ name :: after
    /\ Forall (fun n => dict_get n character_descriptions <> None) before
    /\ dict_get name character_descriptions = None
    /\ add_characters character_descriptions characters_involved full_prompt
       = Raise (KeyError name).
Proof.
  revert full_prompt.
  induction characters_involved as [|c cs IH]; intros full_prompt
    (name & Hin & Hnone); [contradiction|].
  simpl; destruct (dict_get c character_descriptions) as [d|] eqn:E.
  - destruct Hin as [->|Hin]; [congruence|].
    destruct (IH (full_prompt ++ c ++ lit ": " ++ d ++ NL))
      as (before & n & after & -> & Hb & Hn & Hrun);
      [now exists name|].
    exists (c :: before), n, after; repeat split; auto.
    constructor; [congruence | exact Hb].
  - exists [], c, cs; repeat split; auto.
Qed.

(** C9. For the characters [A], [B] described as a dog and a cat and the
    scene ["park"], the prompt is ["A: a dog\nB: a cat\nScene: park."]; in
    general it holds one line [name: description] per involved character,
    in the given order, then the line [Scene: <scene_description>.], and it
    is the prompt handed to the image collaborator. *)
Theorem image_prompt_assembly :
  full_prompt (lit "park") pets [lit "A"; lit "B"]
  = Return (lit "A: a dog" ++ NL ++ lit "B: a cat" ++ NL
            ++ lit "Scene: park.")
  /\ (forall (scene_description : str) (character_descriptions : dict str)
             (characters_involved descriptions : list str),
        Forall2 (fun name d => dict_get name character_descriptions = Some d)
          characters_involved descriptions ->
        full_prompt scene_description character_descriptions
          characters_involved
        = Return (List.concat
                    (map (fun nd => fst nd ++ lit ": " ++ snd nd ++ NL)
                       (combine characters_involved descriptions))
                  ++ lit "Scene: " ++ scene_description ++ lit "."))
  /\ (forall (P : Providers) (self : GeminiStoryGenerator)
             (scene_description : str) (character_descriptions : dict str)
             (characters_involved : list str) (output_dir scene_name p : str)
             (st : State),
        full_prompt scene_description character_descriptions
          characters_involved = Return p ->
        calls (snd (generate_scene_image self scene_description
                      character_descriptions characters_involved
                      output_dir scene_name st))
        = calls st
          ++ [ImageCall (monster_model self)
                (mk_input_data p
                   (lit "deformed, bad anatomy, disfigured, poorly drawn face")
                   1 50 (lit "square") (QArith_base.Qmake 15 2) 2414)]).
Proof.
  split; [vm_compute; reflexivity | split].
  - intros sd cd ci ds H; unfold full_prompt.
    now rewrite (add_characters_described cd ci ds [] H).
  - intros P self sd cd ci od sn p st H.
    unfold generate_scene_image, bind, of_result, monster_client_generate.
    rewrite H.
    destruct (monster_generate _ _ _) as [[r|e] w]; reflexivity.
Qed.

Lemma image_prompt_assembly_witness :
  full_prompt (lit "park") pets [lit "A"; lit "B"]
  = Return (lit "A: a dog" ++ NL ++ lit "B: a cat" ++ NL
            ++ lit "Scene: park.")
  /\ calls (snd (@generate_scene_image (scripted one_image) sample_generator
                   (lit "park") pets [lit "A"; lit "B"]
                   (lit "generated_scene_images") (lit "scene_1")
                   (@start (scripted one_image) [])))
     = [ImageCall (lit "txt2img")
          (make_input_data (lit "A: a dog" ++ NL ++ lit "B: a cat" ++ NL
                            ++ lit "Scene: park."))].
Proof.
  destruct image_prompt_assembly as (_ & Hgeneral & Hcall); split.
  - apply (Hgeneral (lit "park") pets [lit "A"; lit "B"]
             [lit "a dog"; lit "a cat"]).
    repeat constructor.
  - apply (Hcall (scripted one_image) sample_generator (lit "park") pets
             [lit "A"; lit "B"] (lit "generated_scene_images")
             (lit "scene_1") _ (@start (scripted one_image) [])).
    vm_compute; reflexivity.
Defined.

(** C7 as stated fails: the failure for a character without a description
    is the [KeyError] of the dictionary lookup; the service has no
    [MissingCharacterDescription] error. *)
Lemma missing_description_raises_key_error :
  ~ (forall (P : Providers) (self : GeminiStoryGenerator)
            (scene_description : str) (character_descriptions : dict str)
            (characters_involved : list str) (output_dir scene_name : str)
            (st : State),
       (exists name, In name characters_involved
                     /\ dict_get name character_descriptions = None) ->
       exists e,
         fst (generate_scene_image self scene_description
                character_descriptions characters_involved
                output_dir scene_name st) = Raise e
         /\ exn_class e = "MissingCharacterDescription"%string).
Proof.
  intros H.
  destruct (H (scripted one_image) sample_generator (lit "park") pets
              [lit "A"; lit "C"] (lit "generated_scene_images")
              (lit "scene_1") (@start (scripted one_image) []))
    as (e & Hrun & Hclass).
  - exists (lit "C"); split; [right; left; reflexivity | reflexivity].
  - vm_compute in Hrun.
    injection Hrun as <-.
    discriminate Hclass.
Qed.

Section Image.

Context {P : Providers}.

Variable self : GeminiStoryGenerator.
Variables (scene_description : str) (character_descriptions : dict str).
Variable characters_involved : list str.

(** C7, amended. When some involved character has no description, the call
    fails with the [KeyError] of the first such character, in the given
    order, and nothing is sent to the image collaborator. *)
Theorem generate_scene_image_missing (output_dir scene_name : str)
    (st : State) :
  (exists name, In name characters_involved
                /\ dict_get name character_descriptions = None) ->
  exists before name after,
    characters_involved = before ++ name :: after
    /\ Forall (fun n => dict_get n character_descriptions <> None) before
    /\ dict_get name character_descriptions = None
    /\ generate_scene_image self scene_description character_descriptions
         characters_involved output_dir scene_name st
       = (Raise (KeyError name), st).
Proof.
  intros H.
  destruct (add_characters_missing character_descriptions
              characters_involved [] H)
    as (before & name & after & Hsplit & Hb & Hn & Hrun).
  exists before, name, after; repeat split; auto.
  unfold generate_scene_image, bind, of_result, full_prompt.
  now rewrite Hrun.
Qed.

(** C10. [output_dir] and [scene_name] have no influence: two calls that
    differ only in them return the same result and leave the same state,
    hence log the same request; that request, when one is made, carries the
    assembled prompt and the seed 2414. *)
Theorem generate_scene_image_ignores_placement
    (output_dir scene_name output_dir' scene_name' : str) (st : State) :
  generate_scene_image self scene_description character_descriptions
    characters_involved output_dir scene_name st
  = generate_scene_image self scene_description character_descriptions
      characters_involved output_dir' scene_name' st
  /\ (calls (snd (generate_scene_image self scene_description
                    character_descriptions characters_involved
                    output_dir scene_name st)) = calls st
      \/ exists p,
           full_prompt scene_description character_descriptions
             characters_involved = Return p
           /\ seed (make_input_data p) = 2414%Z
           /\ calls (snd (generate_scene_image self scene_description
                            character_descriptions characters_involved
                            output_dir scene_name st))
              = calls st
                ++ [ImageCall (monster_model self) (make_input_data p)]).
Proof.
  split; [reflexivity|].
  unfold generate_scene_image, bind, of_result, monster_client_generate.
  destruct (full_prompt _ _ _) as [p|e]; [right | left; reflexivity].
  exists p; repeat split.
  destruct (monster_generate _ _ _) as [[r|e] w]; reflexivity.
Qed.

End Image.

Lemma generate_scene_image_missing_witness :
  @generate_scene_image (scripted one_image) sample_generator (lit "park")
    pets [lit "A"; lit "C"; lit "D"] (lit "generated_scene_images")
    (lit "scene_1") (@start (scripted one_image) [])
  = (Raise (KeyError (lit "C")), @start (scripted one_image) []).
Proof.
  destruct (@generate_scene_image_missing (scripted one_image)
              sample_generator (lit "park") pets
              [lit "A"; lit "C"; lit "D"] (lit "generated_scene_images")
              (lit "scene_1") (@start (scripted one_image) []))
    as (before & name & after & _ & _ & _ & Hrun).
  - exists (lit "D"); split; [right; right; left; reflexivity | reflexivity].
  - rewrite Hrun; vm_compute in Hrun.
    injection Hrun as <-; reflexivity.
Defined.

(** * Further properties of the parser *)

(** ** Trimming *)

Lemma lstrip_idempotent (s : str) : lstrip (lstrip s) = lstrip s.
Proof.
  induction s as [|c s IH]; simpl; [reflexivity|].
  destruct (isspace c) eqn:E; [exact IH|].
  simpl; now rewrite E.
Qed.

Lemma lstrip_snoc (s : str) (c : char) :
  isspace c = false -> lstrip (s ++ [c]) = lstrip s ++ [c].
Proof.
  intros Hc; induction s as [|d s IH]; simpl.
  - now rewrite Hc.
  - destruct (isspace d); [exact IH | reflexivity].
Qed.

Lemma lstrip_head (s : str) :
  match lstrip s with
  | [] => True
  | c :: _ => isspace c = false
  end.
Proof.
  induction s as [|c s IH]; simpl; [exact I|].
  destruct (isspace c) eqn:E; [exact IH | exact E].
Qed.

Lemma rstrip_head (s : str) :
  match s with [] => True | c :: _ => isspace c = false end ->
  lstrip (rstrip s) = rstrip s.
Proof.
  destruct s as [|c s]; intros H; [reflexivity|].
  unfold rstrip; simpl rev.
  rewrite lstrip_snoc, rev_app_distr by exact H.
  simpl; now rewrite H.
Qed.

Lemma rstrip_idempotent (s : str) : rstrip (rstrip s) = rstrip s.
Proof.
  unfold rstrip; now rewrite rev_involutive, lstrip_idempotent.
Qed.

Lemma strip_idempotent (s : str) : strip (strip s) = strip s.
Proof.
  unfold strip.
  rewrite (rstrip_head (lstrip s)) by apply lstrip_head.
  apply rstrip_idempotent.
Qed.

(** ** Entries of the scan *)

Lemma dict_set_entries {V : Type} (k : str) (v : V) (d : dict V)
    (Q : str * V -> Prop) :
  (forall k', Q (k', v)) -> Forall Q d -> Forall Q (dict_set k v d).
Proof.
  intros Hv H; induction H as [|[k' v'] d Hx Hd IH]; simpl.
  - repeat constructor; apply Hv.
  - destruct (str_eqb k k'); constructor; auto.
Qed.

Lemma dict_set_length {V : Type} (k : str) (v : V) (d : dict V) :
  (List.length (dict_set k v d) <= S (List.length d))%nat.
Proof.
  induction d as [|[k' v'] d IH]; simpl; [lia|].
  destruct (str_eqb k k'); simpl; lia.
Qed.



Lemma flush_entries (st : scan_state) (Q : str * str -> Prop) :
  (forall k v, Q (k, strip v)) ->
  Forall Q (scan_scenes st) -> Forall Q (flush st).
Proof.
  intros Hq H; unfold flush.
  destruct (current_scene st) as [s|]; [|exact H].
  destruct (truthy s); [|exact H].
  apply dict_set_entries; auto.
Qed.

Lemma scan_line_entries (st : scan_state) (line : str)
    (Q : str * str -> Prop) :
  (forall k v, Q (k, strip v)) ->
  Forall Q (scan_scenes st) -> Forall Q (scan_scenes (scan_line st line)).
Proof.
  intros Hq H; unfold scan_line.
  destruct (startswith _ _); [now apply flush_entries|].
  destruct (_ && _); exact H.
Qed.

Lemma scan_entries (lines : list str) (st : scan_state)
    (Q : str * str -> Prop) :
  (forall k v, Q (k, strip v)) ->
  Forall Q (scan_scenes st) ->
  Forall Q (scan_finish (fold_left scan_line lines st)).
Proof.
  intros Hq; revert st; induction lines as [|l ls IH]; intros st H; simpl.
  - unfold scan_finish; destruct (_ && _); [now apply flush_entries | exact H].
  - now apply IH, scan_line_entries.
Qed.

Lemma flush_length (st : scan_state) :
  (List.length (flush st)
   <= List.length (scan_scenes st)
      + (if scene_open (current_scene st) then 1 else 0))%nat.
Proof.
  unfold flush, scene_open.
  destruct (current_scene st) as [s|]; [|lia].
  destruct (truthy s); [|lia].
  pose proof (dict_set_length s (strip (join NL (current_text st)))
                (scan_scenes st)); lia.
Qed.

Lemma scan_line_length (st : scan_state) (line : str) :
  (List.length (scan_scenes (scan_line st line))
   + (if scene_open (current_scene (scan_line st line)) then 1 else 0)
   <= List.length (scan_scenes st)
      + (if scene_open (current_scene st) then 1 else 0)
      + (if startswith (lit "[Scene") (strip line) then 1 else 0))%nat.
Proof.
  destruct (startswith (lit "[Scene") (strip line)) eqn:E.
  - rewrite scan_line_marker by exact E; cbn [scan_scenes current_scene].
    pose proof (flush_length st).
    destruct (scene_open (Some (strip line))); lia.
  - rewrite scan_line_body by (unfold is_marker; congruence).
    destruct (truthy (strip line) && scene_open (current_scene st));
      simpl; lia.
Qed.

Lemma scan_length (lines : list str) (st : scan_state) :
  (List.length (scan_finish (fold_left scan_line lines st))
   <= List.length (scan_scenes st)
      + (if scene_open (current_scene st) then 1 else 0)
      + List.length
          (filter (fun l => startswith (lit "[Scene") (strip l)) lines))%nat.
Proof.
  revert st; induction lines as [|l ls IH]; intros st;
    cbn [fold_left filter].
  - unfold scan_finish.
    pose proof (flush_length st).
    destruct (scene_open (current_scene st)); simpl; [|lia].
    destruct (current_text st); lia.
  - pose proof (IH (scan_line st l)); pose proof (scan_line_length st l).
    destruct (startswith (lit "[Scene") (strip l)); cbn [List.length] in *; lia.
Qed.

Lemma scan_filter_blank (lines : list str) (st : scan_state) :
  fold_left scan_line (filter (fun l => truthy (strip l)) lines) st
  = fold_left scan_line lines st.
Proof.
  revert st; induction lines as [|l ls IH]; intros st; simpl; [reflexivity|].
  destruct (truthy (strip l)) eqn:E; simpl; [apply IH|].
  rewrite IH, (scan_line_blank st l); [reflexivity|].
  now apply truthy_nil.
Qed.


(** ** What the parser guarantees *)

(** X1. Every key of the scenes is the trimmed text of a marker line found
    after the first line; in particular it starts with ['[Scene']. *)
Theorem scene_keys_are_marker_lines (story k : str) :
  In k (keys (scenes (parse_story story))) ->
  startswith (lit "[Scene") k = true
  /\ exists line,
       In line (tl (split_on LF story)) /\ is_marker line /\ k = strip line.
Proof.
  unfold parse_story, parse_scenes, scan, scan_finish; cbn [scenes].
  intros H.
  assert (Hk : In k (keys (scan_scenes
                 (fold_left scan_line (tl (split_on LF story)) scan_start)))
               \/ current_scene
                    (fold_left scan_line (tl (split_on LF story)) scan_start)
                  = Some k).
  { destruct (_ && _); [now apply flush_keys | now left]. }
  apply scan_keys in Hk as [[[]|Hk]|(line & Hin & Hm & ->)];
    [discriminate|].
  split; [exact Hm | now exists line].
Qed.

Lemma scene_keys_are_marker_lines_witness :
  startswith (lit "[Scene") (lit "[Scene 2]") = true
  /\ exists line,
       In line (tl (split_on LF two_scenes))
       /\ is_marker line /\ lit "[Scene 2]" = strip line.
Proof.
  apply (scene_keys_are_marker_lines two_scenes (lit "[Scene 2]")).
  vm_compute; right; left; reflexivity.
Defined.

(** X2. There are never more scenes than marker lines after the first
    line. *)
Theorem scenes_bounded_by_markers (story : str) :
  (List.length (scenes (parse_story story))
   <= List.length
        (filter (fun l => startswith (lit "[Scene") (strip l))
           (tl (split_on LF story))))%nat.
Proof.
  unfold parse_story, parse_scenes, scan; cbn [scenes].
  pose proof (scan_length (tl (split_on LF story)) scan_start) as H.
  exact H.
Qed.

(** X3. The title and every scene body come out trimmed: trimming them
    again changes nothing. *)
Theorem parsed_text_is_trimmed (story : str) :
  strip (title (parse_story story)) = title (parse_story story)
  /\ Forall (fun entry => strip (snd entry) = snd entry)
       (scenes (parse_story story)).
Proof.
  split.
  - apply strip_idempotent.
  - unfold parse_story, parse_scenes, scan; cbn [scenes].
    apply scan_entries; [|constructor].
    intros k v; apply strip_idempotent.
Qed.

(** X4. Blank lines after the first line have no effect on the scenes. *)
Theorem blank_lines_ignored (first : str) (rest : list str) :
  parse_scenes (first :: filter (fun l => truthy (strip l)) rest)
  = parse_scenes (first :: rest).
Proof.
  unfold parse_scenes, scan; simpl tl.
  now rewrite scan_filter_blank.
Qed.

(** X5. The scenes depend neither on the first line nor on the lines
    between it and the first marker line. *)
Theorem lines_before_first_marker_dropped (first first' : str)
    (preamble rest : list str) :
  Forall (fun l => ~ is_marker l) preamble ->
  parse_scenes (first :: preamble ++ rest) = parse_scenes (first' :: rest).
Proof.
  intros H; unfold parse_scenes, scan; simpl tl.
  now rewrite fold_left_app, (scan_closed preamble) by (assumption || reflexivity).
Qed.

Lemma lines_before_first_marker_dropped_witness :
  parse_scenes with_preamble
  = parse_scenes (lit "" :: skipn 3 with_preamble).
Proof.
  apply (lines_before_first_marker_dropped (lit "Title: T") (lit "")
           [lit "Once"; lit ""] (skipn 3 with_preamble)).
  repeat constructor; vm_compute; discriminate.
Defined.



(** X7. A first line that does not contain ['Title:'] is the title as it
    is, trimmed. *)
Theorem title_without_label (story line : str) (more : list str) :
  split_on LF story = line :: more ->
  ~ Substring (lit "Title:") line ->
  title (parse_story story) = strip line.
Proof.
  intros Hlines H; unfold parse_story, parse_title; cbn [title].
  rewrite Hlines; cbn [hd].
  unfold replace; simpl.
  now rewrite replace_from_absent by (assumption || discriminate).
Qed.

Lemma title_without_label_witness :
  title (parse_story untitled) = lit "The Kind Dog".
Proof.
  apply (title_without_label untitled (lit "  The Kind Dog ")
           [lit "[Scene 1]"; lit "Woof"]).
  - vm_compute; reflexivity.
  - apply contains_false; vm_compute; reflexivity.
Defined.

(** X8. A first line made of ['Title:'] and a text that does not contain
    ['Title:'] again gives that text, trimmed, as the title. *)
Theorem title_with_label (story rest : str) (more : list str) :
  split_on LF story = (lit "Title:" ++ rest) :: more ->
  ~ Substring (lit "Title:") rest ->
  title (parse_story story) = strip rest.
Proof.
  intros Hlines H; unfold parse_story; cbn [title].
  rewrite Hlines.
  now apply parse_title_prefix_only.
Qed.

Lemma title_with_label_witness :
  title (parse_story two_scenes) = lit "T".
Proof.
  apply (title_with_label two_scenes (lit " T")
           [lit "[Scene 1]"; lit "Hello"; lit "world"; lit "[Scene 2]";
            lit "Bye"]).
  - vm_compute; reflexivity.
  - apply contains_false; vm_compute; reflexivity.
Defined.

(** * Further properties of validation, the prompt and the retry loop *)

Lemma word_starts_bound (after_space : bool) (s : str) :
  (2 * word_starts after_space s
   <= List.length s + (if after_space then 1 else 0))%nat.
Proof.
  revert after_space; induction s as [|c s IH]; intros after_space; simpl.
  - destruct after_space; lia.
  - pose proof (IH (isspace c)) as H.
    destruct after_space, (isspace c); simpl in *; lia.
Qed.

(** X9. The word limit never rejects a text of at most 1000 characters: such
    a text is valid as soon as it contains ['[Scene']. *)
Theorem short_marked_text_is_valid (story : str) :
  (List.length story <= 1000)%nat ->
  Substring (lit "[Scene") story ->
  _validate_content story = true.
Proof.
  intros Hlen Hs; apply validate_content_true; split; [|exact Hs].
  pose proof (word_starts_bound true story) as H.
  unfold word_count; simpl in H; lia.
Qed.

Lemma short_marked_text_is_valid_witness :
  _validate_content two_scenes = true.
Proof.
  apply (short_marked_text_is_valid two_scenes).
  - vm_compute; repeat constructor.
  - exists (lit "Title: T" ++ NL),
      (lit " 1]" ++ NL ++ lit "Hello" ++ NL ++ lit "world" ++ NL
       ++ lit "[Scene 2]" ++ NL ++ lit "Bye").
    reflexivity.
Defined.

Lemma Substring_right (pat pre s : str) :
  Substring pat s -> Substring pat (pre ++ s).
Proof.
  intros (a & b & ->).
  exists (pre ++ a), b.
  now rewrite <- app_assoc.
Qed.

Lemma Substring_left (pat s suf : str) :
  Substring pat s -> Substring pat (s ++ suf).
Proof.
  intros (a & b & ->).
  exists a, (b ++ suf).
  now rewrite <- !app_assoc.
Qed.

Lemma Substring_refl (s : str) : Substring s s.
Proof. exists [], []; now rewrite app_nil_r. Qed.

Lemma join_contains (sep x : str) (xs : list str) :
  In x xs -> Substring x (join sep xs).
Proof.
  induction xs as [|y ys IH]; [contradiction|].
  intros [->|Hin].
  - destruct ys as [|z zs]; [apply Substring_refl|].
    now exists [], (sep ++ join sep (z :: zs)).
  - destruct ys as [|z zs]; [contradiction|].
    change (join sep (y :: z :: zs)) with (y ++ sep ++ join sep (z :: zs)).
    destruct (IH Hin) as (a & b & ->).
    exists (y ++ sep ++ a), b.
    now rewrite <- !app_assoc.
Qed.

Lemma join_split_element (sep a b : str) (rest : list str) :
  join sep ((a ++ sep ++ b) :: rest) = join sep (a :: b :: rest).
Proof.
  destruct rest as [|r rs]; simpl; [reflexivity|].
  now rewrite <- !app_assoc.
Qed.

(** X10. The moral value and every character name occur verbatim in the
    prompt. *)
Theorem prompt_embeds_inputs (moral_value : str) (character_names : list str) :
  Substring moral_value (_create_story_prompt moral_value character_names)
  /\ Forall
       (fun name =>
          Substring name (_create_story_prompt moral_value character_names))
       character_names.
Proof.
  split.
  - unfold _create_story_prompt.
    eexists _, _; reflexivity.
  - apply Forall_forall; intros name Hin.
    apply (join_contains (lit ", ")) in Hin.
    unfold _create_story_prompt.
    do 13 apply Substring_right.
    now apply Substring_left.
Qed.

(** X11. The prompt shows the names only as one comma-separated line: a
    name that contains [', '] reads exactly like two names. *)
Theorem prompt_joins_names (moral_value a b : str) (rest : list str) :
  _create_story_prompt moral_value ((a ++ lit ", " ++ b) :: rest)
  = _create_story_prompt moral_value (a :: b :: rest).
Proof.
  unfold _create_story_prompt.
  now rewrite join_split_element.
Qed.

Section RetryOutcome.

Context {P : Providers}.

Variable self : GeminiStoryGenerator.
Variables (moral_value : str) (character_names : list str).

Lemma loop_outcome (remaining : nat) (st : State) :
  exists n,
    (n <= remaining)%nat
    /\ snd (generate_story_loop self moral_value character_names remaining st)
       = mk_state
           (world_after self moral_value character_names n (world st))
           (calls st
            ++ repeat (text_call self moral_value character_names) n)
    /\ ((fst (generate_story_loop self moral_value character_names
                remaining st)
         = Raise (Exception (lit "Failed to generate a valid story"))
         /\ n = remaining)
        \/ exists story k,
             n = S k
             /\ fst (answer self moral_value character_names
                       (world_after self moral_value character_names k
                          (world st))) = Return story
             /\ _validate_content story = true
             /\ fst (generate_story_loop self moral_value character_names
                       remaining st) = Return (parse_story story)).
Proof.
  revert st; induction remaining as [|m IH]; intros st.
  - exists 0%nat; simpl; rewrite app_nil_r.
    destruct st; repeat split; auto.
  - destruct (fst (answer self moral_value character_names (world st)))
      as [story|e] eqn:Hans.
    + destruct (_validate_content story) eqn:Hval.
      * exists 1%nat.
        rewrite (loop_accepted self moral_value character_names m st story
                   Hans Hval).
        split; [lia | split; [reflexivity|]].
        right; exists story, 0%nat; auto.
      * assert (Hrej : rejected self moral_value character_names (world st))
          by (unfold rejected; now rewrite Hans).
        rewrite (loop_rejected self moral_value character_names m st Hrej).
        destruct (IH (mk_state
                        (world_after self moral_value character_names 1
                           (world st))
                        (calls st
                         ++ [text_call self moral_value character_names])))
          as (n & Hn & Hst & Hres).
        exists (S n); split; [lia | split].
        -- rewrite Hst; simpl; now rewrite <- app_assoc.
        -- destruct Hres as [[Hr ->]|(s & k & -> & Ha & Hv & Hr)];
             [left; auto|].
           right; exists s, (S k); auto.
    + assert (Hrej : rejected self moral_value character_names (world st))
        by (unfold rejected; now rewrite Hans).
      rewrite (loop_rejected self moral_value character_names m st Hrej).
      destruct (IH (mk_state
                      (world_after self moral_value character_names 1
                         (world st))
                      (calls st
                       ++ [text_call self moral_value character_names])))
        as (n & Hn & Hst & Hres).
      exists (S n); split; [lia | split].
      * rewrite Hst; simpl; now rewrite <- app_assoc.
      * destruct Hres as [[Hr ->]|(s & k & -> & Ha & Hv & Hr)];
          [left; auto|].
        right; exists s, (S k); auto.
Qed.

(** X12. With a bound of zero or less, [generate_story] raises at once and
    asks the collaborator nothing. *)
Theorem generate_story_without_attempts (max_attempts : Z) (st : State) :
  (max_attempts <= 0)%Z ->
  generate_story self moral_value character_names max_attempts st
  = (Raise (Exception (lit "Failed to generate a valid story")), st).
Proof.
  intros H; unfold generate_story.
  replace (Z.to_nat max_attempts) with 0%nat by lia.
  reflexivity.
Qed.

(** X13. Whatever the collaborator does, [generate_story] ends in one of
    two ways: it returns the parse of a text that the collaborator gave on
    the last request made and that passes validation, or it raises
    ['Failed to generate a valid story'] after as many requests as the
    bound allows.  It makes at most that many requests, all with the same
    prompt and temperature, and nothing else; an exception of the
    collaborator never reaches the caller. *)
Theorem generate_story_outcome (max_attempts : Z) (st : State) :
  exists n,
    (n <= Z.to_nat max_attempts)%nat
    /\ snd (generate_story self moral_value character_names max_attempts st)
       = mk_state
           (world_after self moral_value character_names n (world st))
           (calls st
            ++ repeat (text_call self moral_value character_names) n)
    /\ ((fst (generate_story self moral_value character_names
                max_attempts st)
         = Raise (Exception (lit "Failed to generate a valid story"))
         /\ n = Z.to_nat max_attempts)
        \/ exists story k,
             n = S k
             /\ fst (answer self moral_value character_names
                       (world_after self moral_value character_names k
                          (world st))) = Return story
             /\ _validate_content story = true
             /\ fst (generate_story self moral_value character_names
                       max_attempts st) = Return (parse_story story)).
Proof. apply loop_outcome. Qed.

End RetryOutcome.

Lemma generate_story_without_attempts_witness :
  @generate_story (scripted no_image) sample_generator (lit "kindness")
    [lit "Ann"] (-1) (@start (scripted no_image) second_valid_script)
  = (Raise (Exception (lit "Failed to generate a valid story")),
     @start (scripted no_image) second_valid_script).
Proof.
  apply (@generate_story_without_attempts (scripted no_image)
           sample_generator (lit "kindness") [lit "Ann"] (-1)
           (@start (scripted no_image) second_valid_script)).
  lia.
Defined.

(** * Further properties of the image request *)

Lemma add_characters_agree (descriptions descriptions' : dict str)
    (characters_involved : list str) (full_prompt : str) :
  (forall name, In name characters_involved ->
     dict_get name descriptions = dict_get name descriptions') ->
  add_characters descriptions characters_involved full_prompt
  = add_characters descriptions' characters_involved full_prompt.
Proof.
  revert full_prompt; induction characters_involved as [|c cs IH];
    intros full_prompt H; simpl; [reflexivity|].
  rewrite <- (H c) by (left; reflexivity).
  destruct (dict_get c descriptions); [|reflexivity].
  apply IH; intros name Hin; apply H; now right.
Qed.

Section ImageOutcome.

Context {P : Providers}.

Variable self : GeminiStoryGenerator.
Variables (scene_description : str) (character_descriptions : dict str).
Variable characters_involved : list str.
Variables (output_dir scene_name : str).

(** Once the prompt is assembled, exactly one request goes out and its
    answer decides the result. *)
Lemma generate_scene_image_dispatch (st : State) (p : str) :
  full_prompt scene_description character_descriptions characters_involved
  = Return p ->
  generate_scene_image self scene_description character_descriptions
    characters_involved output_dir scene_name st
  = (match fst (monster_generate (world st) (monster_model self)
                  (make_input_data p)) with
     | Return r => first_output r
     | Raise e => Raise e
     end,
     mk_state
       (snd (monster_generate (world st) (monster_model self)
               (make_input_data p)))
       (calls st ++ [ImageCall (monster_model self) (make_input_data p)])).
Proof.
  intros Hp.
  unfold generate_scene_image, bind, of_result, monster_client_generate.
  rewrite Hp.
  destruct (monster_generate _ _ _) as [[r|e] w]; reflexivity.
Qed.

(** X14. When every involved character is described and the image
    collaborator answers with a non-empty output list, the call returns the
    first entry of that list, after exactly one request. *)
Theorem generate_scene_image_first_output (st : State) (p : str)
    (r : dict (list str)) (w : World) (url : str) (others : list str) :
  full_prompt scene_description character_descriptions characters_involved
  = Return p ->
  monster_generate (world st) (monster_model self) (make_input_data p)
  = (Return r, w) ->
  dict_get (lit "output") r = Some (url :: others) ->
  generate_scene_image self scene_description character_descriptions
    characters_involved output_dir scene_name st
  = (Return url,
     mk_state w
       (calls st ++ [ImageCall (monster_model self) (make_input_data p)])).
Proof.
  intros Hp Hgen Hout.
  rewrite (generate_scene_image_dispatch st p Hp), Hgen; simpl.
  unfold first_output; now rewrite Hout.
Qed.

(** X15. When the answer has an empty output list the call fails with the
    [IndexError] of the indexing, and when it has no ['output'] entry with
    the [KeyError] of the lookup; in both cases the request has been
    made. *)
Theorem generate_scene_image_no_output (st : State) (p : str)
    (r : dict (list str)) (w : World) :
  full_prompt scene_description character_descriptions characters_involved
  = Return p ->
  monster_generate (world st) (monster_model self) (make_input_data p)
  = (Return r, w) ->
  dict_get (lit "output") r = None \/ dict_get (lit "output") r = Some [] ->
  generate_scene_image self scene_description character_descriptions
    characters_involved output_dir scene_name st
  = (Raise (match dict_get (lit "output") r with
            | None => KeyError (lit "output")
            | Some _ => IndexError
            end),
     mk_state w
       (calls st ++ [ImageCall (monster_model self) (make_input_data p)])).
Proof.
  intros Hp Hgen Hout.
  rewrite (generate_scene_image_dispatch st p Hp), Hgen; simpl.
  unfold first_output; destruct Hout as [-> | ->]; reflexivity.
Qed.

(** X16. An exception of the image collaborator reaches the caller as it
    is, after that single request: the image path does not retry. *)
Theorem generate_scene_image_propagates (st : State) (p : str) (e : exn)
    (w : World) :
  full_prompt scene_description character_descriptions characters_involved
  = Return p ->
  monster_generate (world st) (monster_model self) (make_input_data p)
  = (Raise e, w) ->
  generate_scene_image self scene_description character_descriptions
    characters_involved output_dir scene_name st
  = (Raise e,
     mk_state w
       (calls st ++ [ImageCall (monster_model self) (make_input_data p)])).
Proof.
  intros Hp Hgen.
  now rewrite (generate_scene_image_dispatch st p Hp), Hgen.
Qed.

(** X17. Only the descriptions of the involved characters count: two
    description mappings that agree on them give the same run. *)
Theorem generate_scene_image_uses_involved_only
    (character_descriptions' : dict str) (st : State) :
  (forall name, In name characters_involved ->
     dict_get name character_descriptions
     = dict_get name character_descriptions') ->
  generate_scene_image self scene_description character_descriptions
    characters_involved output_dir scene_name st
  = generate_scene_image self scene_description character_descriptions'
      characters_involved output_dir scene_name st.
Proof.
  intros H.
  unfold generate_scene_image, full_prompt.
  now rewrite (add_characters_agree character_descriptions
                 character_descriptions' characters_involved [] H).
Qed.

End ImageOutcome.

Lemma generate_scene_image_first_output_witness :
  @generate_scene_image (scripted one_image) sample_generator (lit "park")
    pets [lit "A"] (lit "generated_scene_images") (lit "scene_1")
    (@start (scripted one_image) [])
  = (Return (lit "https://img.example/1.png"),
     @mk_state (scripted one_image) []
       [ImageCall (lit "txt2img")
          (make_input_data (lit "A: a dog" ++ NL ++ lit "Scene: park."))]).
Proof.
  apply (@generate_scene_image_first_output (scripted one_image)
           sample_generator (lit "park") pets [lit "A"]
           (lit "generated_scene_images") (lit "scene_1")
           (@start (scripted one_image) [])
           (lit "A: a dog" ++ NL ++ lit "Scene: park.")
           [(lit "output", [lit "https://img.example/1.png"])] []
           (lit "https://img.example/1.png") []);
    reflexivity.
Defined.

Lemma generate_scene_image_no_output_witness :
  @generate_scene_image (scripted no_image) sample_generator (lit "park")
    pets [lit "A"] (lit "generated_scene_images") (lit "scene_1")
    (@start (scripted no_image) [])
  = (Raise IndexError,
     @mk_state (scripted no_image) []
       [ImageCall (lit "txt2img")
          (make_input_data (lit "A: a dog" ++ NL ++ lit "Scene: park."))])
  /\ fst (@generate_scene_image (scripted no_output_key) sample_generator
            (lit "park") pets [lit "A"] (lit "generated_scene_images")
            (lit "scene_1") (@start (scripted no_output_key) []))
     = Raise (KeyError (lit "output")).
Proof.
  split.
  - apply (@generate_scene_image_no_output (scripted no_image)
             sample_generator (lit "park") pets [lit "A"]
             (lit "generated_scene_images") (lit "scene_1")
             (@start (scripted no_image) [])
             (lit "A: a dog" ++ NL ++ lit "Scene: park.")
             [(lit "output", [])] []);
      [reflexivity | reflexivity | right; reflexivity].
  - rewrite (@generate_scene_image_no_output (scripted no_output_key)
               sample_generator (lit "park") pets [lit "A"]
               (lit "generated_scene_images") (lit "scene_1")
               (@start (scripted no_output_key) [])
               (lit "A: a dog" ++ NL ++ lit "Scene: park.")
               [(lit "status", [lit "FAILED"])] []);
      [reflexivity | reflexivity | reflexivity | left; reflexivity].
Defined.

Lemma generate_scene_image_propagates_witness :
  @generate_scene_image (scripted failing_image) sample_generator
    (lit "park") pets [lit "A"] (lit "generated_scene_images")
    (lit "scene_1") (@start (scripted failing_image) [])
  = (Raise (mk_exn "ConnectionError" (lit "timed out")),
     @mk_state (scripted failing_image) []
       [ImageCall (lit "txt2img")
          (make_input_data (lit "A: a dog" ++ NL ++ lit "Scene: park."))]).
Proof.
  apply (@generate_scene_image_propagates (scripted failing_image)
           sample_generator (lit "park") pets [lit "A"]
           (lit "generated_scene_images") (lit "scene_1")
           (@start (scripted failing_image) [])
           (lit "A: a dog" ++ NL ++ lit "Scene: park.")
           (mk_exn "ConnectionError" (lit "timed out")) []);
    reflexivity.
Defined.

Lemma generate_scene_image_uses_involved_only_witness :
  @generate_scene_image (scripted one_image) sample_generator (lit "park")
    pets [lit "A"] (lit "generated_scene_images") (lit "scene_1")
    (@start (scripted one_image) [])
  = @generate_scene_image (scripted one_image) sample_generator (lit "park")
      [(lit "A", lit "a dog")] [lit "A"] (lit "generated_scene_images")
      (lit "scene_1") (@start (scripted one_image) []).
Proof.
  apply (@generate_scene_image_uses_involved_only (scripted one_image)
           sample_generator (lit "park") pets [lit "A"]
           (lit "generated_scene_images") (lit "scene_1")
           [(lit "A", lit "a dog")] (@start (scripted one_image) [])).
  intros name [<-|[]]; reflexivity.
Defined.

(** * Properties of the HTTP handlers *)

Section HandlerOutcome.

Context {P : Providers}.

Variable repr : str -> str.


(** X19. When an involved character has no description, the image handler
    raises [HTTPException] with status 500 whose detail is the [repr] of
    the first such name, and no request is made. *)
Theorem image_handler_missing_description (request : App.ImageRequest)
    (st : State) :
  (exists name,
     In name (App.ir_characters_involved request)
     /\ dict_get name (App.ir_character_descriptions request) = None) ->
  exists before name after,
    App.ir_characters_involved request = before ++ name :: after
    /\ Forall
         (fun n => dict_get n (App.ir_character_descriptions request) <> None)
         before
    /\ dict_get name (App.ir_character_descriptions request) = None
    /\ App.generate_image repr request st
       = (App.HTTPException 500 (repr name), st).
Proof.
  intros H.
  destruct (add_characters_missing (App.ir_character_descriptions request)
              (App.ir_characters_involved request) [] H)
    as (before & name & after & Hsplit & Hb & Hn & Hrun).
  exists before, name, after; repeat split; auto.
  unfold App.generate_image, generate_scene_image, bind, of_result,
    full_prompt.
  now rewrite Hrun.
Qed.

(** X20. When the image collaborator answers with an empty output list, the
    image handler raises [HTTPException] with status 500 and the detail
    ['list index out of range']. *)
Theorem image_handler_empty_output (request : App.ImageRequest) (st : State)
    (p : str) (r : dict (list str)) (w : World) :
  full_prompt (App.ir_scene_description request)
    (App.ir_character_descriptions request)
    (App.ir_characters_involved request) = Return p ->
  monster_generate (world st) (lit "txt2img") (make_input_data p)
  = (Return r, w) ->
  dict_get (lit "output") r = Some [] ->
  App.generate_image repr request st
  = (App.HTTPException 500 (lit "list index out of range"),
     mk_state w (calls st ++ [ImageCall (lit "txt2img") (make_input_data p)])).
Proof.
  intros Hp Hgen Hout; unfold App.generate_image.
  rewrite (generate_scene_image_dispatch App.story_generator _ _ _ _ _ st p Hp).
  change (monster_model App.story_generator) with (lit "txt2img").
  rewrite Hgen; simpl fst; simpl snd.
  unfold first_output; rewrite Hout; reflexivity.
Qed.

(** X21. When every involved character is described and the collaborator
    answers with a non-empty output list, the image handler returns its
    first entry; the scene name of the request plays no part. *)
Theorem image_handler_first_output (request : App.ImageRequest) (st : State)
    (p : str) (r : dict (list str)) (w : World) (url : str)
    (others : list str) :
  full_prompt (App.ir_scene_description request)
    (App.ir_character_descriptions request)
    (App.ir_characters_involved request) = Return p ->
  monster_generate (world st) (lit "txt2img") (make_input_data p)
  = (Return r, w) ->
  dict_get (lit "output") r = Some (url :: others) ->
  App.generate_image repr request st
  = (App.Respond url,
     mk_state w (calls st ++ [ImageCall (lit "txt2img") (make_input_data p)])).
Proof.
  intros Hp Hgen Hout; unfold App.generate_image.
  rewrite (generate_scene_image_dispatch App.story_generator _ _ _ _ _ st p Hp).
  change (monster_model App.story_generator) with (lit "txt2img").
  rewrite Hgen; simpl fst; simpl snd.
  unfold first_output; rewrite Hout; reflexivity.
Qed.

End HandlerOutcome.

Lemma image_handler_missing_description_witness :
  @App.generate_image (scripted one_image) quoted
    (park_request [lit "A"; lit "C"]) (@start (scripted one_image) [])
  = (App.HTTPException 500 (lit "'C'"), @start (scripted one_image) []).
Proof.
  destruct (@image_handler_missing_description (scripted one_image) quoted
              (park_request [lit "A"; lit "C"])
              (@start (scripted one_image) []))
    as (before & name & after & _ & _ & _ & Hrun).
  - exists (lit "C"); split; [right; left; reflexivity | reflexivity].
  - rewrite Hrun.
    assert (E : lit "C" ++ lit "'" = name ++ lit "'").
    { vm_compute in Hrun; injection Hrun as Hd; exact Hd. }
    apply app_inj_tail in E as [<- _]; reflexivity.
Defined.

Lemma image_handler_empty_output_witness :
  @App.generate_image (scripted no_image) quoted (park_request [lit "A"])
    (@start (scripted no_image) [])
  = (App.HTTPException 500 (lit "list index out of range"),
     @mk_state (scripted no_image) []
       [ImageCall (lit "txt2img")
          (make_input_data (lit "A: a dog" ++ NL ++ lit "Scene: park."))]).
Proof.
  apply (@image_handler_empty_output (scripted no_image) quoted
           (park_request [lit "A"]) (@start (scripted no_image) [])
           (lit "A: a dog" ++ NL ++ lit "Scene: park.")
           [(lit "output", [])] []);
    reflexivity.
Defined.

Lemma image_handler_first_output_witness :
  @App.generate_image (scripted one_image) quoted (park_request [lit "A"])
    (@start (scripted one_image) [])
  = (App.Respond (lit "https://img.example/1.png"),
     @mk_state (scripted one_image) []
       [ImageCall (lit "txt2img")
          (make_input_data (lit "A: a dog" ++ NL ++ lit "Scene: park."))]).
Proof.
  apply (@image_handler_first_output (scripted one_image) quoted
           (park_request [lit "A"]) (@start (scripted one_image) [])
           (lit "A: a dog" ++ NL ++ lit "Scene: park.")
           [(lit "output", [lit "https://img.example/1.png"])] []
           (lit "https://img.example/1.png") []);
    reflexivity.
Defined.
